(** * Socratic Tales: the generation pipeline, embedded and verified

    A shallow embedding of [src/services/geminiService.ts] (the WAV encoder,
    the request builder, the response parser, the two media services) and of
    the [App] component (the orchestrating state machine), followed by the
    theorems that settle the specification's claims about them.

    Conventions.
    - A byte is a [Z] in [0, 256); a [Uint8Array] / [ArrayBuffer] is a
      [list Z].  Stores go through [ToUint8] / [ToUint16] / [ToUint32], the
      wrap-around of the ECMAScript conversions of the same names.
    - A JavaScript string is a [string]; a character is a code unit.
    - A call that may throw returns [option]; a promise that has settled is
      an [Outcome]. *)

From Stdlib Require Import ZArith Lia Ascii String List Bool.
From stdpp Require Import base option list strings.
Import ListNotations.

Local Open Scope string_scope.
Local Open Scope list_scope.

(** ** Strings *)

Module Str.

Definition LF : ascii := "010"%char.
Definition QUOTE : ascii := "034"%char.
Definition BACKTICK : ascii := "`"%char.

Definition charCodeAt (c : ascii) : Z := Z.of_nat (nat_of_ascii c).

(** [starts_with p s]: [p] is a prefix of [s]. *)
Fixpoint starts_with (p s : string) : bool :=
  match p, s with
  | EmptyString, _ => true
  | String a p', String b s' => Ascii.eqb a b && starts_with p' s'
  | String _ _, EmptyString => false
  end.

Definition codes (s : string) : list Z :=
  List.map charCodeAt (list_ascii_of_string s).

End Str.

(** ** DataView over an ArrayBuffer, and the WAV encoder *)

Module Wav.

Definition ToUint8 (v : Z) : Z := (v mod 256)%Z.
Definition ToUint16 (v : Z) : Z := (v mod 65536)%Z.
Definition ToUint32 (v : Z) : Z := (v mod 4294967296)%Z.

(** [new ArrayBuffer(len)]: [len] zero bytes. *)
Definition new_ArrayBuffer (len : nat) : list Z := replicate len 0%Z.

(** The [i]-th byte (least significant first) of a non-negative [n]. *)
Definition byte_of (n : Z) (i : nat) : Z :=
  ((n / 2 ^ (8 * Z.of_nat i)) mod 256)%Z.

(** [n] spread over [width] bytes, in the order the flag asks for. *)
Definition bytes_of (width : nat) (n : Z) (littleEndian : bool) : list Z :=
  let le := List.map (byte_of n) (seq 0 width) in
  if littleEndian then le else rev le.

(** Writes [bs] at [off], one byte after the other. *)
Fixpoint store (view : list Z) (off : nat) (bs : list Z) : list Z :=
  match bs with
  | [] => view
  | b :: bs' => store (<[off := b]> view) (S off) bs'
  end.

(** [DataView.prototype.setUint8/16/32]: a RangeError ([None]) when the
    bytes do not fit in the buffer. *)
Definition setUint8 (view : list Z) (byteOffset : nat) (value : Z)
  : option (list Z) :=
  if decide (byteOffset + 1 <= length view)
  then Some (store view byteOffset [ToUint8 value])
  else None.

Definition setUint16 (view : list Z) (byteOffset : nat) (value : Z)
    (littleEndian : bool) : option (list Z) :=
  if decide (byteOffset + 2 <= length view)
  then Some (store view byteOffset (bytes_of 2 (ToUint16 value) littleEndian))
  else None.

Definition setUint32 (view : list Z) (byteOffset : nat) (value : Z)
    (littleEndian : bool) : option (list Z) :=
  if decide (byteOffset + 4 <= length view)
  then Some (store view byteOffset (bytes_of 4 (ToUint32 value) littleEndian))
  else None.

(** [Uint8Array.prototype.set(source, offset)]. *)
Definition TypedArray_set (target source : list Z) (offset : nat)
  : option (list Z) :=
  if decide (offset + length source <= length target)
  then Some (take offset target ++ source
             ++ drop (offset + length source) target)
  else None.

(** [writeString]: the loop [for (i = 0; i < string.length; i++)
    view.setUint8(offset + i, string.charCodeAt(i))]; [rest] is the part
    of the string from index [i] on. *)
Fixpoint writeString_from (view : list Z) (offset i : nat) (rest : string)
  : option (list Z) :=
  match rest with
  | EmptyString => Some view
  | String c rest' =>
      view' ← setUint8 view (offset + i) (Str.charCodeAt c);
      writeString_from view' offset (S i) rest'
  end.

Definition writeString (view : list Z) (offset : nat) (s : string)
  : option (list Z) :=
  writeString_from view offset 0 s.

(** [pcmToWav].  [sampleRate] is an integer; the two divisions by 8 are
    exact (the dividends are multiples of 16), so [Z.div] is the
    JavaScript quotient. *)
Definition pcmToWav (pcmData : list Z) (sampleRate : Z) : option (list Z) :=
  let numChannels := 1%Z in
  let bitsPerSample := 16%Z in
  let byteRate := (sampleRate * numChannels * bitsPerSample / 8)%Z in
  let blockAlign := (numChannels * bitsPerSample / 8)%Z in
  let dataSize := length pcmData in
  let buffer := new_ArrayBuffer (44 + dataSize) in
  (* RIFF chunk *)
  view ← writeString buffer 0 "RIFF";
  view ← setUint32 view 4 (36 + Z.of_nat dataSize) true;
  view ← writeString view 8 "WAVE";
  (* fmt sub-chunk *)
  view ← writeString view 12 "fmt ";
  view ← setUint32 view 16 16 true;
  view ← setUint16 view 20 1 true;
  view ← setUint16 view 22 numChannels true;
  view ← setUint32 view 24 sampleRate true;
  view ← setUint32 view 28 byteRate true;
  view ← setUint16 view 32 blockAlign true;
  view ← setUint16 view 34 bitsPerSample true;
  (* data sub-chunk *)
  view ← writeString view 36 "data";
  view ← setUint32 view 40 (Z.of_nat dataSize) true;
  (* PCM data *)
  TypedArray_set view pcmData 44.

(** Reading back: the number a little-endian byte sequence denotes, and
    the [len] bytes of a buffer from [off] on. *)
Fixpoint le_value (bs : list Z) : Z :=
  match bs with
  | [] => 0
  | b :: bs' => b + 256 * le_value bs'
  end%Z.

Definition slice (off len : nat) (buf : list Z) : list Z :=
  take len (drop off buf).

Definition is_byte (b : Z) : Prop := (0 <= b < 256)%Z.

(** The 44 header bytes [pcmToWav] leaves in front of [n] bytes of
    samples at rate [r], field after field (used to state the proofs). *)
Definition header_bytes (n : nat) (r : Z) : list Z :=
  Str.codes "RIFF" ++ bytes_of 4 (ToUint32 (36 + Z.of_nat n)) true
  ++ Str.codes "WAVE"
  ++ Str.codes "fmt " ++ bytes_of 4 (ToUint32 16) true
  ++ bytes_of 2 (ToUint16 1) true ++ bytes_of 2 (ToUint16 1) true
  ++ bytes_of 4 (ToUint32 r) true
  ++ bytes_of 4 (ToUint32 (r * 1 * 16 / 8)) true
  ++ bytes_of 2 (ToUint16 (1 * 16 / 8)) true
  ++ bytes_of 2 (ToUint16 16) true
  ++ Str.codes "data" ++ bytes_of 4 (ToUint32 (Z.of_nat n)) true.

End Wav.

(** ** Data model ([types.ts]) *)

(** A promise once settled: what [await] returns or throws, and the
    [PromiseSettledResult] that [Promise.allSettled] hands back. *)
Inductive Outcome (A : Type) : Type :=
| Fulfilled (value : A)
| Rejected (reason : string).
Arguments Fulfilled {A} value.
Arguments Rejected {A} reason.

Record Meta := {
  detected_language : string;
  educational_concept : string;
  context_used : bool;
  character_voice_profile : string }.

Record Storyboard := {
  title : string;
  display_text : string;
  audio_text : string;
  interactive_question : string;
  suggested_questions : list string }.

Record Visuals := { image_prompt : string }.

Record StoryResponse := {
  meta : Meta;
  storyboard : Storyboard;
  visuals : Visuals }.

(** [ChildContext].  TypeScript declares both fields [string]; the types
    are erased at run time, so a field that was not supplied is the value
    [undefined], here [None]. *)
Record ChildContext := {
  childName : option string;
  characterName : option string }.

Inductive AppState := IDLE | ANALYZING | GENERATING_MEDIA | PLAYING | ERROR.

(** A browser [File]: its declared MIME type, and what
    [FileReader.readAsDataURL] produces for it ([None]: the read fails). *)
Record File := {
  file_type : string;
  file_dataURL : option string }.

(** A [Blob] of one byte buffer, and the two platform functions the
    services call without defining them. *)
Record Blob := { blob_bytes : list Z; blob_type : string }.

Record Platform := {
  JSON_parse : string -> option StoryResponse;
  URL_createObjectURL : Blob -> string }.

(** ** Text generation: request construction and response parsing *)

Module Story.

(** [a || d] on a possibly absent string: [undefined] and the empty string
    are falsy. *)
Definition or_default (a : option string) (d : string) : string :=
  match a with
  | Some (String c s) => String c s
  | Some EmptyString | None => d
  end.

(** *** [JSON.stringify] of the context object *)

Definition hex_digit (n : nat) : ascii :=
  nth n (list_ascii_of_string "0123456789abcdef") "0"%char.

(** QuoteJSONString, one code unit at a time. *)
Definition quote_char (c : ascii) : string :=
  let n := nat_of_ascii c in
  if Nat.eqb n 8 then "\b"
  else if Nat.eqb n 9 then "\t"
  else if Nat.eqb n 10 then "\n"
  else if Nat.eqb n 12 then "\f"
  else if Nat.eqb n 13 then "\r"
  else if Nat.eqb n 34 then String "\"%char (String Str.QUOTE EmptyString)
  else if Nat.eqb n 92 then "\\"
  else if Nat.ltb n 32
       then "\u00" +:+ String (hex_digit (n / 16))
                        (String (hex_digit (n mod 16)) EmptyString)
  else String c EmptyString.

Fixpoint quote_chars (s : string) : string :=
  match s with
  | EmptyString => EmptyString
  | String c s' => quote_char c +:+ quote_chars s'
  end.

Definition quote (s : string) : string :=
  String Str.QUOTE (quote_chars s +:+ String Str.QUOTE EmptyString).

Fixpoint join_comma (items : list string) : string :=
  match items with
  | [] => EmptyString
  | [x] => x
  | x :: rest => x +:+ "," +:+ join_comma rest
  end.

Definition stringify_array (items : list string) : string :=
  "[" +:+ join_comma (List.map quote items) +:+ "]".

(** The object literal of [generateStory], before serialisation. *)
Record ContextObject := {
  child_name : string;
  character_name : string;
  prev_topics : list string }.

Definition JSON_stringify (o : ContextObject) : string :=
  "{" +:+ quote "child_name" +:+ ":" +:+ quote (child_name o)
  +:+ "," +:+ quote "character_name" +:+ ":" +:+ quote (character_name o)
  +:+ "," +:+ quote "prev_topics" +:+ ":" +:+ stringify_array (prev_topics o)
  +:+ "}".

Definition contextObject (childContext : ChildContext)
    (previousTopics : list string) : ContextObject :=
  {| child_name := or_default (childName childContext) "Friend";
     character_name := or_default (characterName childContext) EmptyString;
     prev_topics := previousTopics |}.

(** *** The parts of the request *)

Inductive Part :=
| inlineData (mimeType : string) (data : option string)
| text (t : string).

(** [s.split(',')]. *)
Fixpoint split_on (sep : ascii) (s : string) : list string :=
  match s with
  | EmptyString => [EmptyString]
  | String c s' =>
      if Ascii.eqb c sep then EmptyString :: split_on sep s'
      else match split_on sep s' with
           | [] => [String c EmptyString]
           | w :: ws => String c w :: ws
           end
  end.

(** [fileToGenerativePart]: the data URL without its prefix; the promise
    rejects when the reader reports an error. *)
Definition fileToGenerativePart (file : File) : Outcome (option string) :=
  match file_dataURL file with
  | None => Rejected "FileReader error"
  | Some base64String => Fulfilled (split_on ","%char base64String !! 1)
  end.

Definition NO_DRAWING_NOTE : string :=
  String Str.LF "(NOTE: The user did not provide a drawing. Please invent a creative, friendly character suitable for the story's theme and describe them in the visuals.image_prompt.)".

(** [generateStory], up to the call of the model: the [parts] it sends. *)
Definition buildParts (imageFile : option File) (question : string)
    (childContext : ChildContext) (previousTopics : list string)
  : Outcome (list Part) :=
  let contextPrompt :=
    JSON_stringify (contextObject childContext previousTopics) in
  let textPrompt :=
    "User Question: " +:+ question +:+ String Str.LF "Context: "
    +:+ contextPrompt in
  match imageFile with
  | Some file =>
      match fileToGenerativePart file with
      | Rejected e => Rejected e
      | Fulfilled imageBase64 =>
          Fulfilled [inlineData (file_type file) imageBase64; text textPrompt]
      end
  | None => Fulfilled [text (textPrompt +:+ NO_DRAWING_NOTE)]
  end.

(** The text part [buildParts] sends for a context object [o], with the
    closing [note] (empty when an image is sent). *)
Definition prompt (question : string) (o : ContextObject) (note : string)
  : string :=
  "User Question: " +:+ question +:+ String Str.LF "Context: "
  +:+ JSON_stringify o +:+ note.

(** *** The response: fences, trimming, parsing *)

Definition FENCE_OPEN : string := "```json" +:+ String Str.LF EmptyString.
Definition FENCE_CLOSE : string := String Str.LF "```".

(** The global replacement of the fence pattern (FENCE_OPEN or FENCE_CLOSE)
    by the empty string: a left-to-right scan; where one of the two
    alternatives matches, its characters are dropped and the scan resumes
    after them.  [skip] counts the characters of the current match
    still to be dropped. *)
Fixpoint replace_fences_from (skip : nat) (s : string) : string :=
  match s with
  | EmptyString => EmptyString
  | String c s' =>
      match skip with
      | S k => replace_fences_from k s'
      | O =>
          if Str.starts_with FENCE_OPEN s then replace_fences_from 7 s'
          else if Str.starts_with FENCE_CLOSE s then replace_fences_from 3 s'
          else String c (replace_fences_from 0 s')
      end
  end.

Definition replace_fences (s : string) : string := replace_fences_from 0 s.

(** [String.prototype.trim]: white space and line terminators among the
    code units below 256. *)
Definition is_trimmed (c : ascii) : bool :=
  let n := nat_of_ascii c in
  (Nat.leb 9 n && Nat.leb n 13) || Nat.eqb n 32 || Nat.eqb n 160.

Fixpoint trim_start (s : string) : string :=
  match s with
  | EmptyString => EmptyString
  | String c s' => if is_trimmed c then trim_start s' else s
  end.

Fixpoint trim_end (s : string) : string :=
  match s with
  | EmptyString => EmptyString
  | String c s' =>
      match trim_end s' with
      | EmptyString => if is_trimmed c then EmptyString else String c EmptyString
      | t => String c t
      end
  end.

Definition trim (s : string) : string := trim_end (trim_start s).

(** [generateStory], from the model's answer on: [response.text] is
    [text]; [JSON.parse] throws a SyntaxError where the platform's parser
    gives [None]. *)
Definition parseResponse (P : Platform) (text : option string)
  : Outcome StoryResponse :=
  match text with
  | None | Some EmptyString => Rejected "No response from AI"
  | Some t =>
      let jsonStr := trim (replace_fences t) in
      match JSON_parse P jsonStr with
      | Some story => Fulfilled story
      | None => Rejected "SyntaxError"
      end
  end.

(** [generateStory]; [model] is the remote call
    [ai.models.generateContent], from the parts sent to its settled
    result. *)
Definition generateStory (P : Platform)
    (model : list Part -> Outcome (option string))
    (imageFile : option File) (question : string)
    (childContext : ChildContext) (previousTopics : list string)
  : Outcome StoryResponse :=
  match buildParts imageFile question childContext previousTopics with
  | Rejected e => Rejected e
  | Fulfilled parts =>
      match model parts with
      | Rejected e => Rejected e
      | Fulfilled response_text => parseResponse P response_text
      end
  end.

(** The three ways the text call fails once the request is sent: the call
    throws; its text is missing or empty; what is left of the text after
    fence stripping and trimming does not parse. *)
Definition text_call_fails (P : Platform) (r : Outcome (option string))
  : Prop :=
  match r with
  | Rejected _ => True
  | Fulfilled None | Fulfilled (Some EmptyString) => True
  | Fulfilled (Some t) => JSON_parse P (trim (replace_fences t)) = None
  end.

(** The shape every JSON text has, character by character (RFC 8259):
    outside string literals only white space, structural characters and the
    characters of numbers and of [true], [false], [null] occur; inside a
    string literal no control character occurs unescaped, a backslash is
    followed by one of the escape letters, and the literal is closed. *)
Inductive LexMode := Outside | InString | Escaped.

Definition mem_ascii (c : ascii) (cs : string) : bool :=
  existsb (Ascii.eqb c) (list_ascii_of_string cs).

Definition is_json_space (c : ascii) : bool :=
  let n := nat_of_ascii c in
  Nat.eqb n 9 || Nat.eqb n 10 || Nat.eqb n 13 || Nat.eqb n 32.

Definition lex_step (m : LexMode) (c : ascii) : option LexMode :=
  match m with
  | Outside =>
      if Ascii.eqb c Str.QUOTE then Some InString
      else if is_json_space c
              || mem_ascii c "{}[]:,-+.0123456789eEtrufalsn"
           then Some Outside
      else None
  | InString =>
      if Ascii.eqb c Str.QUOTE then Some Outside
      else if Ascii.eqb c "\"%char then Some Escaped
      else if Nat.ltb (nat_of_ascii c) 32 then None
      else Some InString
  | Escaped =>
      if Ascii.eqb c Str.QUOTE || mem_ascii c "\/bfnrtu"
      then Some InString else None
  end.

Fixpoint lex_from (m : LexMode) (s : string) : bool :=
  match s with
  | EmptyString => match m with Outside => true | _ => false end
  | String c s' =>
      match lex_step m c with
      | Some m' => lex_from m' s'
      | None => false
      end
  end.

(** A JSON body: non-empty and of that shape.  Every text of the JSON
    grammar below is one ([json_text_is_body]). *)
Definition json_body (s : string) : Prop :=
  s <> EmptyString /\ lex_from Outside s = true.

(** *** The JSON grammar (RFC 8259)

    The texts [JSON.parse] accepts, production by production, as predicates
    on strings.  It serves to check that [json_body] leaves no JSON text
    out. *)

Definition is_digit (c : ascii) : bool := mem_ascii c "0123456789".

Definition is_hex (c : ascii) : bool := mem_ascii c "0123456789abcdefABCDEF".

(** ws = *( space / tab / line feed / carriage return ) *)
Inductive json_ws : string -> Prop :=
| ws_nil : json_ws EmptyString
| ws_cons c w : is_json_space c = true -> json_ws w -> json_ws (String c w).

(** 1*DIGIT *)
Inductive json_digits : string -> Prop :=
| digits_one c : is_digit c = true -> json_digits (String c EmptyString)
| digits_cons c d :
    is_digit c = true -> json_digits d -> json_digits (String c d).

(** int = zero / ( digit1-9 *DIGIT ) *)
Inductive json_int : string -> Prop :=
| int_zero : json_int "0"
| int_digit c : is_digit c = true -> c <> "0"%char ->
                json_int (String c EmptyString)
| int_digits c d : is_digit c = true -> c <> "0"%char -> json_digits d ->
                   json_int (String c d).

(** frac = decimal-point 1*DIGIT, or nothing *)
Inductive json_frac : string -> Prop :=
| frac_none : json_frac EmptyString
| frac_some d : json_digits d -> json_frac ("." +:+ d).

(** exp = e [ minus / plus ] 1*DIGIT, or nothing *)
Inductive json_exp : string -> Prop :=
| exp_none : json_exp EmptyString
| exp_some e sign d :
    e = "e" \/ e = "E" -> sign = EmptyString \/ sign = "+" \/ sign = "-" ->
    json_digits d -> json_exp (e +:+ sign +:+ d).

(** number = [ minus ] int [ frac ] [ exp ] *)
Inductive json_number : string -> Prop :=
| number_intro sign i f e :
    sign = EmptyString \/ sign = "-" ->
    json_int i -> json_frac f -> json_exp e ->
    json_number (sign +:+ i +:+ f +:+ e).

(** The characters between the quotation marks of a string. *)
Inductive json_chars : string -> Prop :=
| chars_nil : json_chars EmptyString
| chars_unescaped c cs :
    Nat.ltb (nat_of_ascii c) 32 = false -> c <> Str.QUOTE -> c <> "\"%char ->
    json_chars cs -> json_chars (String c cs)
| chars_escape c cs :
    c = Str.QUOTE \/ mem_ascii c "\/bfnrt" = true ->
    json_chars cs -> json_chars (String "\"%char (String c cs))
| chars_unicode h1 h2 h3 h4 cs :
    is_hex h1 = true -> is_hex h2 = true -> is_hex h3 = true ->
    is_hex h4 = true -> json_chars cs ->
    json_chars ("\u" +:+ String h1 (String h2 (String h3 (String h4 cs)))).

Inductive json_string : string -> Prop :=
| string_intro cs :
    json_chars cs ->
    json_string (String Str.QUOTE (cs +:+ String Str.QUOTE EmptyString)).

Inductive json_value : string -> Prop :=
| value_false : json_value "false"
| value_null : json_value "null"
| value_true : json_value "true"
| value_number n : json_number n -> json_value n
| value_string s : json_string s -> json_value s
| value_empty_array w : json_ws w -> json_value ("[" +:+ w +:+ "]")
| value_array es : json_elements es -> json_value ("[" +:+ es +:+ "]")
| value_empty_object w : json_ws w -> json_value ("{" +:+ w +:+ "}")
| value_object ms : json_members ms -> json_value ("{" +:+ ms +:+ "}")
with json_elements : string -> Prop :=
| elements_one w1 v w2 :
    json_ws w1 -> json_value v -> json_ws w2 ->
    json_elements (w1 +:+ v +:+ w2)
| elements_cons w1 v w2 es :
    json_ws w1 -> json_value v -> json_ws w2 -> json_elements es ->
    json_elements (w1 +:+ v +:+ w2 +:+ "," +:+ es)
with json_members : string -> Prop :=
| members_one w1 k w2 w3 v w4 :
    json_ws w1 -> json_string k -> json_ws w2 ->
    json_ws w3 -> json_value v -> json_ws w4 ->
    json_members (w1 +:+ k +:+ w2 +:+ ":" +:+ w3 +:+ v +:+ w4)
| members_cons w1 k w2 w3 v w4 ms :
    json_ws w1 -> json_string k -> json_ws w2 ->
    json_ws w3 -> json_value v -> json_ws w4 -> json_members ms ->
    json_members (w1 +:+ k +:+ w2 +:+ ":" +:+ w3 +:+ v +:+ w4 +:+ ","
                  +:+ ms).

Scheme json_value_min := Minimality for json_value Sort Prop
  with json_elements_min := Minimality for json_elements Sort Prop
  with json_members_min := Minimality for json_members Sort Prop.

Combined Scheme json_mutual_ind
  from json_value_min, json_elements_min, json_members_min.

(** JSON-text = ws value ws *)
Inductive json_text : string -> Prop :=
| text_intro w1 v w2 :
    json_ws w1 -> json_value v -> json_ws w2 ->
    json_text (w1 +:+ v +:+ w2).

(** Reading [s] in mode [m] ends in mode [m] again. *)
Definition stays (m : LexMode) (s : string) : Prop :=
  forall t, lex_from m (s +:+ t) = lex_from m t.

(** [t] does not begin with a backtick. *)
Definition no_backtick_first (t : string) : Prop :=
  match t with
  | EmptyString => True
  | String c _ => c <> Str.BACKTICK
  end.

(** The body wrapped in a fenced code block. *)
Definition fenced (s : string) : string := FENCE_OPEN +:+ s +:+ FENCE_CLOSE.

End Story.

(** ** Media generation: speech and illustration *)

Module Media.

(** A part of a model response and its optional inline payload. *)
Record InlineData := { data : option string }.
Record ResponsePart := { part_inlineData : option InlineData }.

(** *** [atob]: forgiving base64 decoding (WHATWG Infra) *)

Definition is_ascii_whitespace (c : ascii) : bool :=
  let n := nat_of_ascii c in
  Nat.eqb n 9 || Nat.eqb n 10 || Nat.eqb n 12 || Nat.eqb n 13 || Nat.eqb n 32.

Definition base64_value (c : ascii) : option nat :=
  let n := nat_of_ascii c in
  if Nat.leb 65 n && Nat.leb n 90 then Some (n - 65)
  else if Nat.leb 97 n && Nat.leb n 122 then Some (n - 97 + 26)
  else if Nat.leb 48 n && Nat.leb n 57 then Some (n - 48 + 52)
  else if Nat.eqb n 43 then Some 62
  else if Nat.eqb n 47 then Some 63
  else None.

Fixpoint base64_values (cs : list ascii) : option (list nat) :=
  match cs with
  | [] => Some []
  | c :: cs' =>
      v ← base64_value c;
      vs ← base64_values cs';
      Some (v :: vs)
  end.

(** Four 6-bit values make three bytes; of a final group of three or two
    values the surplus bits are dropped. *)
Fixpoint decode_sextets (vs : list nat) : list nat :=
  match vs with
  | a :: b :: c :: d :: rest =>
      (a * 4 + b / 16) :: (b mod 16 * 16 + c / 4) :: (c mod 4 * 64 + d)
      :: decode_sextets rest
  | [a; b; c] => [a * 4 + b / 16; b mod 16 * 16 + c / 4]
  | [a; b] => [a * 4 + b / 16]
  | _ => []
  end.

Definition strip_padding (cs : list ascii) : list ascii :=
  if Nat.eqb (length cs mod 4) 0 then
    match rev cs with
    | "="%char :: "="%char :: r => rev r
    | "="%char :: r => rev r
    | _ => cs
    end
  else cs.

(** [atob(data)]: the binary string, or [None] for the
    InvalidCharacterError. *)
Definition atob (input : string) : option string :=
  let cs := List.filter (fun c => negb (is_ascii_whitespace c))
                        (list_ascii_of_string input) in
  let cs := strip_padding cs in
  if Nat.eqb (length cs mod 4) 1 then None
  else
    vs ← base64_values cs;
    Some (string_of_list_ascii (List.map ascii_of_nat (decode_sextets vs))).

(** *** [generateSpeech] *)

(** [response.candidates?.[0]?.content?.parts?.[0]?.inlineData?.data];
    [parts] is [None] where the chain stops before [parts]. *)
Definition first_inline_data (parts : option (list ResponsePart))
  : option string :=
  ps ← parts; p ← head ps; i ← part_inlineData p; data i.

(** [generateSpeech]; [response] is the settled model call. *)
Definition generateSpeech (P : Platform)
    (response : Outcome (option (list ResponsePart))) : Outcome string :=
  match response with
  | Rejected e => Rejected e
  | Fulfilled parts =>
      match first_inline_data parts with
      | None | Some EmptyString => Rejected "Failed to generate speech"
      | Some base64Audio =>
          match atob base64Audio with
          | None => Rejected "InvalidCharacterError"
          | Some binaryString =>
              (* pcmBytes[i] = binaryString.charCodeAt(i) *)
              let pcmBytes :=
                List.map (fun c => Wav.ToUint8 (Str.charCodeAt c))
                         (list_ascii_of_string binaryString) in
              match Wav.pcmToWav pcmBytes 24000 with
              | None => Rejected "RangeError"
              | Some wavBuffer =>
                  let blob := {| blob_bytes := wavBuffer;
                                 blob_type := "audio/wav" |} in
                  Fulfilled (URL_createObjectURL P blob)
              end
          end
      end
  end.

(** The byte array [generateSpeech] fills from the binary string. *)
Definition pcm_of (binaryString : string) : list Z :=
  List.map (fun c => Wav.ToUint8 (Str.charCodeAt c))
           (list_ascii_of_string binaryString).

(** The WAV blob it wraps them in. *)
Definition wav_blob (pcm : list Z) : Blob :=
  {| blob_bytes := Wav.header_bytes (length pcm) 24000 ++ pcm;
     blob_type := "audio/wav" |}.

(** *** [generateIllustration] *)

(** The loop over the parts: the first one with inline data wins. *)
Fixpoint first_image (parts : list ResponsePart) : option string :=
  match parts with
  | [] => None
  | p :: rest =>
      match part_inlineData p with
      | Some i =>
          Some ("data:image/png;base64,"
                +:+ match data i with Some d => d | None => "undefined" end)
      | None => first_image rest
      end
  end.

Definition generateIllustration
    (response : Outcome (option (list ResponsePart))) : Outcome string :=
  match response with
  | Rejected e => Rejected e
  | Fulfilled parts =>
      match first_image (default [] parts) with
      | Some url => Fulfilled url
      | None => Rejected "Failed to generate illustration"
      end
  end.

End Media.

(** ** The orchestrator ([App]) *)

Module App.

(** The component's state: one field per [useState]. *)
Record State := {
  appState : AppState;
  storyData : option StoryResponse;
  audioUrl : option string;
  imageUrl : option string;
  errorMsg : option string;
  previousTopics : list string;
  currentFile : option File;
  currentContext : ChildContext }.

Definition EMPTY_CONTEXT : ChildContext :=
  {| childName := Some EmptyString; characterName := Some EmptyString |}.

Definition initial : State :=
  {| appState := IDLE; storyData := None; audioUrl := None; imageUrl := None;
     errorMsg := None; previousTopics := []; currentFile := None;
     currentContext := EMPTY_CONTEXT |}.

(** The setters. *)
Definition setAppState (v : AppState) (a : State) : State :=
  {| appState := v; storyData := storyData a; audioUrl := audioUrl a;
     imageUrl := imageUrl a; errorMsg := errorMsg a;
     previousTopics := previousTopics a; currentFile := currentFile a;
     currentContext := currentContext a |}.

Definition setStoryData (v : option StoryResponse) (a : State) : State :=
  {| appState := appState a; storyData := v; audioUrl := audioUrl a;
     imageUrl := imageUrl a; errorMsg := errorMsg a;
     previousTopics := previousTopics a; currentFile := currentFile a;
     currentContext := currentContext a |}.

Definition setAudioUrl (v : option string) (a : State) : State :=
  {| appState := appState a; storyData := storyData a; audioUrl := v;
     imageUrl := imageUrl a; errorMsg := errorMsg a;
     previousTopics := previousTopics a; currentFile := currentFile a;
     currentContext := currentContext a |}.

Definition setImageUrl (v : option string) (a : State) : State :=
  {| appState := appState a; storyData := storyData a; audioUrl := audioUrl a;
     imageUrl := v; errorMsg := errorMsg a;
     previousTopics := previousTopics a; currentFile := currentFile a;
     currentContext := currentContext a |}.

Definition setErrorMsg (v : option string) (a : State) : State :=
  {| appState := appState a; storyData := storyData a; audioUrl := audioUrl a;
     imageUrl := imageUrl a; errorMsg := v;
     previousTopics := previousTopics a; currentFile := currentFile a;
     currentContext := currentContext a |}.

(** [setPreviousTopics], in its updater form; [handleReset] passes the
    value [[]], the constant updater. *)
Definition setPreviousTopics (f : list string -> list string) (a : State)
  : State :=
  {| appState := appState a; storyData := storyData a; audioUrl := audioUrl a;
     imageUrl := imageUrl a; errorMsg := errorMsg a;
     previousTopics := f (previousTopics a); currentFile := currentFile a;
     currentContext := currentContext a |}.

Definition setCurrentFile (v : option File) (a : State) : State :=
  {| appState := appState a; storyData := storyData a; audioUrl := audioUrl a;
     imageUrl := imageUrl a; errorMsg := errorMsg a;
     previousTopics := previousTopics a; currentFile := v;
     currentContext := currentContext a |}.

Definition setCurrentContext (v : ChildContext) (a : State) : State :=
  {| appState := appState a; storyData := storyData a; audioUrl := audioUrl a;
     imageUrl := imageUrl a; errorMsg := errorMsg a;
     previousTopics := previousTopics a; currentFile := currentFile a;
     currentContext := v |}.

(** [newHistory.slice(-n)]: the last [n] elements. *)
Definition slice_last {A} (n : nat) (l : list A) : list A :=
  drop (length l - n) l.

(** The updater given to [setPreviousTopics]. *)
Definition appendTopic (concept : string) (prev : list string) : list string :=
  let newHistory := prev ++ [concept] in
  slice_last 3 newHistory.

(** A call of [processStoryGeneration] suspended at one of its two
    [await]s, with what it waits for. *)
Inductive Pending :=
| AwaitStory (file : option File) (question : string)
             (context : ChildContext) (topics : list string)
| AwaitMedia (audio_text : string) (image_prompt : string).

Definition OOPS : string :=
  "Oops! The magic wand sputtered. Please try again!".

(** [processStoryGeneration] up to [await generateStory(...)]: the four
    setters, then the call with the current topic history. *)
Definition processStoryGeneration_begin (file : option File)
    (question : string) (context : ChildContext) (a : State)
  : State * Pending :=
  let a := setAppState ANALYZING a in
  let a := setErrorMsg None a in
  let a := setAudioUrl None a in
  let a := setImageUrl None a in
  (a, AwaitStory file question context (previousTopics a)).

(** ... from the settled story to [await Promise.allSettled([...])], or
    through the outer [catch].  The second component is what was written
    with [console.error]. *)
Definition processStoryGeneration_story (o : Outcome StoryResponse)
    (a : State) : State * list string * option Pending :=
  match o with
  | Fulfilled story =>
      let a := setStoryData (Some story) a in
      let a := setPreviousTopics
                 (appendTopic (educational_concept (meta story))) a in
      let a := setAppState GENERATING_MEDIA a in
      (a, [],
       Some (AwaitMedia (audio_text (storyboard story))
                        (image_prompt (visuals story))))
  | Rejected err =>
      let a := setErrorMsg (Some OOPS) a in
      let a := setAppState ERROR a in
      (a, ["Story generation failed: " +:+ err], None)
  end.

(** [Promise.allSettled]: it always fulfils, with one settled result per
    promise, in order. *)
Definition Promise_allSettled {A} (promises : list (Outcome A))
  : Outcome (list (Outcome A)) :=
  Fulfilled promises.

(** The inner [try] block once [Promise.allSettled] has settled, with its
    [catch]: the two results are looked at one after the other.  The
    [catch] is there for a rejection, which [Promise.allSettled] never
    produces, and for a result that is missing. *)
Definition applyMediaResults (settled : Outcome (list (Outcome string)))
    (a : State) : State * list string :=
  match settled with
  | Fulfilled (audioResult :: rest) =>
      let '(a, log1) :=
        match audioResult with
        | Fulfilled value => (setAudioUrl (Some value) a, [])
        | Rejected reason => (a, ["Audio generation failed: " +:+ reason])
        end in
      match rest with
      | imageResult :: _ =>
          let '(a, log2) :=
            match imageResult with
            | Fulfilled value => (setImageUrl (Some value) a, [])
            | Rejected reason => (a, ["Image generation failed: " +:+ reason])
            end in
          (a, log1 ++ log2)
      | [] => (a, log1 ++ ["Media generation error: TypeError"])
      end
  | Fulfilled [] => (a, ["Media generation error: TypeError"])
  | Rejected mediaError => (a, ["Media generation error: " +:+ mediaError])
  end.

(** ... and from the two settled media calls to the end. *)
Definition processStoryGeneration_media
    (audioResult imageResult : Outcome string) (a : State)
  : State * list string :=
  let '(a, log) :=
    applyMediaResults (Promise_allSettled [audioResult; imageResult]) a in
  (setAppState PLAYING a, log).

Definition handleReset (a : State) : State :=
  let a := setAppState IDLE a in
  let a := setStoryData None a in
  let a := setAudioUrl None a in
  let a := setImageUrl None a in
  let a := setErrorMsg None a in
  let a := setPreviousTopics (fun _ => []) a in
  let a := setCurrentFile None a in
  setCurrentContext EMPTY_CONTEXT a.

Definition handleStartAdventure (file : option File) (question : string)
    (context : ChildContext) (a : State) : State * Pending :=
  let a := setCurrentFile file a in
  let a := setCurrentContext context a in
  processStoryGeneration_begin file question context a.

Definition handleSuggestedQuestionClick (question : string) (a : State)
  : State * Pending :=
  processStoryGeneration_begin (currentFile a) question (currentContext a) a.

(** *** The session: state, calls in flight, console *)

Record Session := {
  app : State;
  pending : list Pending;
  console : list string }.

Definition start : Session :=
  {| app := initial; pending := []; console := [] |}.

Inductive Event :=
| StartAdventure (file : option File) (question : string)
                 (context : ChildContext)
| SuggestedQuestionClick (question : string)
| Reset
| StorySettled (i : nat) (o : Outcome StoryResponse)
| MediaSettled (i : nat) (audioResult imageResult : Outcome string).

(** One event.  [None]: the event cannot happen (no such call in
    flight). *)
Definition step (s : Session) (e : Event) : option Session :=
  match e with
  | StartAdventure file question context =>
      let '(a, p) := handleStartAdventure file question context (app s) in
      Some {| app := a; pending := pending s ++ [p]; console := console s |}
  | SuggestedQuestionClick question =>
      let '(a, p) := handleSuggestedQuestionClick question (app s) in
      Some {| app := a; pending := pending s ++ [p]; console := console s |}
  | Reset =>
      Some {| app := handleReset (app s); pending := pending s;
              console := console s |}
  | StorySettled i o =>
      match pending s !! i with
      | Some (AwaitStory _ _ _ _) =>
          let '(a, log, next) := processStoryGeneration_story o (app s) in
          Some {| app := a;
                  pending := match next with
                             | Some p => <[i := p]> (pending s)
                             | None => delete i (pending s)
                             end;
                  console := console s ++ log |}
      | _ => None
      end
  | MediaSettled i audioResult imageResult =>
      match pending s !! i with
      | Some (AwaitMedia _ _) =>
          let '(a, log) :=
            processStoryGeneration_media audioResult imageResult (app s) in
          Some {| app := a; pending := delete i (pending s);
                  console := console s ++ log |}
      | _ => None
      end
  end.

Fixpoint run (s : Session) (es : list Event) : option Session :=
  match es with
  | [] => Some s
  | e :: es' => s' ← step s e; run s' es'
  end.

(** *** Successful turns, one after the other

    A turn that succeeds: its question, the story the text call returns and
    how the two media calls settle.  The first turn of a session is
    submitted from the input form, the later ones are follow-ups. *)
Record Turn := {
  turn_question : string;
  turn_story : StoryResponse;
  turn_audio : Outcome string;
  turn_image : Outcome string }.

Definition settle_events (t : Turn) : list Event :=
  [StorySettled 0 (Fulfilled (turn_story t));
   MediaSettled 0 (turn_audio t) (turn_image t)].

Definition first_turn_events (file : option File) (context : ChildContext)
    (t : Turn) : list Event :=
  StartAdventure file (turn_question t) context :: settle_events t.

Definition follow_up_events (t : Turn) : list Event :=
  SuggestedQuestionClick (turn_question t) :: settle_events t.

Definition session_events (file : option File) (context : ChildContext)
    (turns : list Turn) : list Event :=
  match turns with
  | [] => []
  | t :: ts =>
      first_turn_events file context t ++ concat (List.map follow_up_events ts)
  end.

Definition concept (t : Turn) : string :=
  educational_concept (meta (turn_story t)).

(** A session at rest (nothing in flight) whose history is the last three
    of the concepts [l] appended so far, and which retains [file] and
    [context]. *)
Definition at_rest (file : option File) (context : ChildContext)
    (l : list string) (s : Session) : Prop :=
  pending s = [] /\
  previousTopics (app s) = slice_last 3 l /\
  currentFile (app s) = file /\
  currentContext (app s) = context.

(** *** What the rendered view lets the user do

    [InputSection] (and with it [handleStartAdventure]) is rendered in
    [IDLE] only; [StoryView], with its suggested questions and its reset
    button, when [PLAYING] with a story; the error card and its reset
    button in [ERROR]; while [ANALYZING] or [GENERATING_MEDIA] only the
    spinner. *)
Definition offered (a : State) (e : Event) : bool :=
  match e with
  | StartAdventure _ _ _ =>
      match appState a with IDLE => true | _ => false end
  | SuggestedQuestionClick question =>
      match appState a, storyData a with
      | PLAYING, Some story =>
          bool_decide (question ∈ suggested_questions (storyboard story))
      | _, _ => false
      end
  | Reset =>
      match appState a, storyData a with
      | PLAYING, Some _ => true
      | ERROR, _ => true
      | _, _ => false
      end
  | StorySettled _ _ | MediaSettled _ _ _ => true
  end.

Definition view_step (s : Session) (e : Event) : option Session :=
  if offered (app s) e then step s e else None.

Fixpoint view_run (s : Session) (es : list Event) : option Session :=
  match es with
  | [] => Some s
  | e :: es' => s' ← view_step s e; view_run s' es'
  end.

(** A session showing the story of turn [t], nothing in flight, which
    retains [file] and [context]. *)
Definition showing (file : option File) (context : ChildContext) (t : Turn)
    (s : Session) : Prop :=
  pending s = [] /\
  appState (app s) = PLAYING /\
  storyData (app s) = Some (turn_story t) /\
  currentFile (app s) = file /\
  currentContext (app s) = context.


(** *** One whole turn, nothing interleaved

    [processStoryGeneration] run from its first line to its last against
    given collaborators: [model] answers the story request, [speech] and
    [illustration] the two media requests. *)
Record Collaborators := {
  story_model : list Story.Part -> Outcome (option string);
  speech_model : string -> Outcome (option (list Media.ResponsePart));
  image_model : string -> Outcome (option (list Media.ResponsePart)) }.

Definition processStoryGeneration (P : Platform) (C : Collaborators)
    (file : option File) (question : string) (context : ChildContext)
    (a : State) : State * list string :=
  match processStoryGeneration_begin file question context a with
  | (a, AwaitStory file question context topics) =>
      let story :=
        Story.generateStory P (story_model C) file question context topics in
      match processStoryGeneration_story story a with
      | (a, log, Some (AwaitMedia audio_text image_prompt)) =>
          let audioResult :=
            Media.generateSpeech P (speech_model C audio_text) in
          let imageResult :=
            Media.generateIllustration (image_model C image_prompt) in
          let '(a, log') :=
            processStoryGeneration_media audioResult imageResult a in
          (a, log ++ log')
      | (a, log, _) => (a, log)
      end
  | (a, AwaitMedia _ _) => (a, [])
  end.

End App.

(** ** A concrete story, its JSON text and collaborators, for the examples *)

Module Sample.

Definition story : StoryResponse :=
  {| meta := {| detected_language := "en";
                educational_concept := "gravity";
                context_used := false;
                character_voice_profile := "brave" |};
     storyboard := {| title := "The Invisible Magnet";
                      display_text := "The ball fell. [SFX: Thud]";
                      audio_text := "The ball fell. THUD!";
                      interactive_question := "What pulls the ball down?";
                      suggested_questions :=
                        ["Why do birds not fall?";
                         "Is there gravity on the Moon?"] |};
     visuals := {| image_prompt := "A brave crayon robot" |} |}.

Definition member (k v : string) : string := Story.quote k +:+ ":" +:+ v.

Definition object (members : list string) : string :=
  "{" +:+ Story.join_comma members +:+ "}".

(** The JSON text of [story]. *)
Definition body : string :=
  object
    [member "meta"
       (object
          [member "detected_language" (Story.quote "en");
           member "educational_concept" (Story.quote "gravity");
           member "context_used" "false";
           member "character_voice_profile" (Story.quote "brave")]);
     member "storyboard"
       (object
          [member "title" (Story.quote "The Invisible Magnet");
           member "display_text" (Story.quote "The ball fell. [SFX: Thud]");
           member "audio_text" (Story.quote "The ball fell. THUD!");
           member "interactive_question"
             (Story.quote "What pulls the ball down?");
           member "suggested_questions"
             (Story.stringify_array
                ["Why do birds not fall?"; "Is there gravity on the Moon?"])]);
     member "visuals"
       (object [member "image_prompt" (Story.quote "A brave crayon robot")])].

(** A platform whose parser knows this one text. *)
Definition platform : Platform :=
  {| JSON_parse := fun s => if String.eqb s body then Some story else None;
     URL_createObjectURL := fun b => "blob:" +:+ blob_type b |}.

Definition drawing : File :=
  {| file_type := "image/png";
     file_dataURL := Some "data:image/png;base64,iVBORw0KGgo=" |}.

Definition child : ChildContext :=
  {| childName := Some "Ada"; characterName := Some "Robo" |}.

Definition payload (base64 : string) : list Media.ResponsePart :=
  [ {| Media.part_inlineData := Some {| Media.data := Some base64 |} |} ].

(** The model answers with the fenced text; speech fails; the
    illustration arrives. *)
Definition speech_fails : App.Collaborators :=
  {| App.story_model := fun _ => Fulfilled (Some (Story.fenced body));
     App.speech_model := fun _ => Rejected "503";
     App.image_model := fun _ => Fulfilled (Some (payload "iVBORw0KGgo=")) |}.


(** The model answers with prose instead of JSON. *)
Definition text_fails : App.Collaborators :=
  {| App.story_model :=
       fun _ => Fulfilled (Some "Sorry, I cannot help with that.");
     App.speech_model := fun _ => Rejected "503";
     App.image_model := fun _ => Rejected "503" |}.

End Sample.

(** ** What [App] renders *)

Module Screen.
Import App.

(** The one block of the JSX of [App] whose condition holds; [Nothing] when
    none does ([PLAYING] without a story). *)
Inductive Rendered :=
| InputSection
| Loading (status : AppState)
| StoryView (story : StoryResponse) (audioUrl generatedImageUrl : option string)
| ErrorCard (message : string)
| Nothing.

Definition FALLBACK_MESSAGE : string :=
  "Something went wrong in the magic lab.".

Definition render (a : State) : Rendered :=
  match appState a with
  | IDLE => InputSection
  | ANALYZING => Loading ANALYZING
  | GENERATING_MEDIA => Loading GENERATING_MEDIA
  | PLAYING =>
      match storyData a with
      | Some story => StoryView story (audioUrl a) (imageUrl a)
      | None => Nothing
      end
  | ERROR => ErrorCard (Story.or_default (errorMsg a) FALLBACK_MESSAGE)
  end.

(** The stored story, if any, is the one whose concept was appended last. *)
Definition newest_topic_is_story (a : State) : Prop :=
  match storyData a with
  | Some story =>
      last (previousTopics a) = Some (educational_concept (meta story))
  | None => previousTopics a = []
  end.

(** What [appState] tells about the rest of a session. *)
Definition consistent (s : Session) : Prop :=
  let a := app s in
  newest_topic_is_story a /\
  match appState a with
  | IDLE => pending s = [] /\ a = initial
  | ANALYZING =>
      (exists question,
         pending s = [AwaitStory (currentFile a) question (currentContext a)
                                 (previousTopics a)]) /\
      errorMsg a = None /\ audioUrl a = None /\ imageUrl a = None
  | GENERATING_MEDIA =>
      (exists story,
         storyData a = Some story /\
         pending s = [AwaitMedia (audio_text (storyboard story))
                                 (image_prompt (visuals story))]) /\
      errorMsg a = None /\ audioUrl a = None /\ imageUrl a = None
  | PLAYING =>
      pending s = [] /\ storyData a <> None /\ errorMsg a = None
  | ERROR =>
      pending s = [] /\ errorMsg a = Some OOPS /\
      audioUrl a = None /\ imageUrl a = None
  end.

End Screen.

(** ** [StoryView]: the highlighting of the story text *)

Module Highlight.

Definition CR : ascii := "013"%char.

(** The characters the dot of a regular expression does not match. *)
Definition is_line_terminator (c : ascii) : bool :=
  Ascii.eqb c Str.LF || Ascii.eqb c CR.

(** The lazy [.*?] followed by [close], read from the start of [s]: the
    shortest run of characters other than line terminators that ends in
    [close].  The result is that run, [close] included. *)
Fixpoint lazy_until (close : ascii) (s : string) : option string :=
  match s with
  | EmptyString => None
  | String c s' =>
      if Ascii.eqb c close then Some (String c EmptyString)
      else if is_line_terminator c then None
      else match lazy_until close s' with
           | Some m => Some (String c m)
           | None => None
           end
  end.

(** What follows the prefix [p] in [s]. *)
Fixpoint strip_prefix (p s : string) : option string :=
  match p, s with
  | EmptyString, _ => Some s
  | String a p', String b s' =>
      if Ascii.eqb a b then strip_prefix p' s' else None
  | String _ _, EmptyString => None
  end.

(** The pattern of [processText], an SFX tag in square brackets or any
    parenthesis, matched at the start of [s]: the text it matches. *)
Definition match_tag (s : string) : option string :=
  match strip_prefix "[SFX:" s with
  | Some rest =>
      match lazy_until "]" rest with
      | Some m => Some ("[SFX:" +:+ m)
      | None => None
      end
  | None =>
      match strip_prefix "(" s with
      | Some rest =>
          match lazy_until ")" rest with
          | Some m => Some ("(" +:+ m)
          | None => None
          end
      | None => None
      end
  end.

(** [paragraph.split(pattern)] with the pattern in a capturing group: the
    texts between the matches, and between them the matches themselves.
    [cur] is the text since the last match, [skip] the number of
    characters of the current match still to be passed over. *)
Fixpoint split_from (skip : nat) (cur : string) (s : string) : list string :=
  match s with
  | EmptyString => [cur]
  | String c s' =>
      match skip with
      | S k => split_from k cur s'
      | O =>
          match match_tag s with
          | Some tag =>
              cur :: tag :: split_from (String.length tag - 1) EmptyString s'
          | None => split_from 0 (cur +:+ String c EmptyString) s'
          end
      end
  end.

Definition split_tags (paragraph : string) : list string :=
  split_from 0 EmptyString paragraph.

(** The replacement of every square bracket and every [SFX:] in an SFX
    part by nothing. *)
Fixpoint strip_sfx_from (skip : nat) (s : string) : string :=
  match s with
  | EmptyString => EmptyString
  | String c s' =>
      match skip with
      | S k => strip_sfx_from k s'
      | O =>
          if Ascii.eqb c "["%char || Ascii.eqb c "]"%char
          then strip_sfx_from 0 s'
          else if Str.starts_with "SFX:" s then strip_sfx_from 3 s'
          else String c (strip_sfx_from 0 s')
      end
  end.

Definition sfx_label (part : string) : string :=
  Story.trim (strip_sfx_from 0 part).

(** What a part of a paragraph is rendered as. *)
Inductive Span :=
| Sfx (label : string)
| Emotion (part : string)
| Plain (part : string).

Definition render_part (part : string) : Span :=
  if Str.starts_with "[SFX:" part then Sfx (sfx_label part)
  else if Str.starts_with "(" part then Emotion part
  else Plain part.

Inductive Node :=
| Br
| Paragraph (spans : list Span).

Definition render_paragraph (paragraph : string) : Node :=
  match Story.trim paragraph with
  | EmptyString => Br
  | _ => Paragraph (List.map render_part (split_tags paragraph))
  end.

(** [processText]. *)
Definition processText (display_text : string) : list Node :=
  List.map render_paragraph (Story.split_on Str.LF display_text).

(** The text a span shows. *)
Definition span_text (sp : Span) : string :=
  match sp with
  | Sfx label => label
  | Emotion part => part
  | Plain part => part
  end.

Fixpoint concat_strings (parts : list string) : string :=
  match parts with
  | [] => EmptyString
  | p :: rest => p +:+ concat_strings rest
  end.

(** [parts.join(sep)]. *)
Fixpoint join (sep : string) (parts : list string) : string :=
  match parts with
  | [] => EmptyString
  | [p] => p
  | p :: rest => p +:+ sep +:+ join sep rest
  end.

Definition contains_char (c : ascii) (s : string) : bool :=
  existsb (Ascii.eqb c) (list_ascii_of_string s).

(** [s] without its first [n] characters. *)
Fixpoint drop_chars (n : nat) (s : string) : string :=
  match n, s with
  | O, _ => s
  | S k, String _ s' => drop_chars k s'
  | S _, EmptyString => EmptyString
  end.



End Highlight.

(** ** Words for the statements about the media services *)

Module Inline.
Import Media.

(** The part carries no inline data. *)
Definition no_inline_data (p : ResponsePart) : Prop :=
  part_inlineData p = None.

(** The data URL [generateIllustration] makes of an inline payload; a
    payload without [data] is spliced in as the text of [undefined]. *)
Definition image_url (i : InlineData) : string :=
  "data:image/png;base64," +:+ default "undefined" (data i).

End Inline.

(** ** Words for the statements about the console *)

Module Console.

(** What [console.error] is given for a settled media call: nothing when it
    fulfilled, one line with the reason when it was rejected. *)
Definition media_log (label : string) (result : Outcome string)
  : list string :=
  match result with
  | Fulfilled _ => []
  | Rejected reason => [label +:+ reason]
  end.

End Console.

(** ** The context object as a JSON text

    What the specification asks of the serialised context, written down
    independently of [Story.JSON_stringify], to be compared with it: an
    object with the members [child_name], [character_name] and
    [prev_topics], in this order, whose values are two string tokens and an
    array of string tokens; and what a string token denotes (RFC 8259,
    section 7). *)

Module ContextText.

Definition in_quotes (s : string) : string :=
  String Str.QUOTE (s +:+ String Str.QUOTE EmptyString).

Definition context_text (name character : string) (topics : list string)
  : string :=
  "{" +:+ in_quotes "child_name" +:+ ":" +:+ name
  +:+ "," +:+ in_quotes "character_name" +:+ ":" +:+ character
  +:+ "," +:+ in_quotes "prev_topics" +:+ ":["
  +:+ Highlight.join "," topics +:+ "]}".

Definition hex_value (c : ascii) : option nat :=
  let n := nat_of_ascii c in
  if Nat.leb 48 n && Nat.leb n 57 then Some (n - 48)
  else if Nat.leb 97 n && Nat.leb n 102 then Some (n - 87)
  else if Nat.leb 65 n && Nat.leb n 70 then Some (n - 55)
  else None.

(** The code unit the four hexadecimal digits denote, when it is below
    256. *)
Definition unicode_escape (h1 h2 h3 h4 : ascii) : option ascii :=
  match hex_value h1, hex_value h2, hex_value h3, hex_value h4 with
  | Some 0, Some 0, Some a, Some b => Some (ascii_of_nat (16 * a + b))
  | _, _, _, _ => None
  end.

(** The character at the front of the inside of a string token, its escape
    resolved, and what follows it.  [None]: no character stands there (the
    closing quotation mark, a control character, an escape that is not
    one). *)
Definition read_char (s : string) : option (ascii * string) :=
  match s with
  | EmptyString => None
  | String c rest =>
      if Ascii.eqb c "\"%char then
        match rest with
        | EmptyString => None
        | String e rest' =>
            if Ascii.eqb e Str.QUOTE then Some (Str.QUOTE, rest')
            else if Ascii.eqb e "\"%char then Some ("\"%char, rest')
            else if Ascii.eqb e "/"%char then Some ("/"%char, rest')
            else if Ascii.eqb e "b"%char then Some ("008"%char, rest')
            else if Ascii.eqb e "f"%char then Some ("012"%char, rest')
            else if Ascii.eqb e "n"%char then Some ("010"%char, rest')
            else if Ascii.eqb e "r"%char then Some ("013"%char, rest')
            else if Ascii.eqb e "t"%char then Some ("009"%char, rest')
            else if Ascii.eqb e "u"%char then
              match rest' with
              | String h1 (String h2 (String h3 (String h4 rest''))) =>
                  match unicode_escape h1 h2 h3 h4 with
                  | Some u => Some (u, rest'')
                  | None => None
                  end
              | _ => None
              end
            else None
        end
      else if Ascii.eqb c Str.QUOTE then None
      else if Nat.ltb (nat_of_ascii c) 32 then None
      else Some (c, rest)
  end.

(** The characters up to the closing quotation mark, which ends the
    token.  [fuel] bounds the number of characters read. *)
Fixpoint read_chars (fuel : nat) (s : string) : option string :=
  match fuel with
  | O => None
  | S fuel' =>
      match s with
      | EmptyString => None
      | String c rest =>
          if Ascii.eqb c Str.QUOTE
          then match rest with
               | EmptyString => Some EmptyString
               | String _ _ => None
               end
          else match read_char s with
               | Some (x, rest') =>
                   match read_chars fuel' rest' with
                   | Some v => Some (String x v)
                   | None => None
                   end
               | None => None
               end
      end
  end.

(** The string a string token denotes. *)
Definition string_value (token : string) : option string :=
  match token with
  | EmptyString => None
  | String q body =>
      if Ascii.eqb q Str.QUOTE then read_chars (String.length body) body
      else None
  end.

End ContextText.

(** ** Strings of any code unit

    A JavaScript string is a sequence of 16-bit code units.  The strings
    above hold the code units below 256, which is all the services are
    given by their callers ([pcmToWav] passes four-letter literals);
    [writeString] itself takes any string. *)

Module Utf16.

Definition is_code_unit (u : Z) : Prop := (0 <= u < 65536)%Z.

(** [writeString] on a string given by its code units: the loop
    [for (i = 0; i < string.length; i++)
    view.setUint8(offset + i, string.charCodeAt(i))]; [rest] is the part of
    the string from index [i] on. *)
Fixpoint writeString_from (view : list Z) (offset i : nat) (rest : list Z)
  : option (list Z) :=
  match rest with
  | [] => Some view
  | u :: rest' =>
      view' ← Wav.setUint8 view (offset + i) u;
      writeString_from view' offset (S i) rest'
  end.

Definition writeString (view : list Z) (offset : nat) (s : list Z)
  : option (list Z) :=
  writeString_from view offset 0 s.

End Utf16.

(** ** What [JSON.parse] hands to the program

    [generateStory] ends in [return JSON.parse(jsonStr) as StoryResponse].
    The cast is erased at run time: the promise fulfils with whatever value
    the text denotes, a story or not.  [Platform.JSON_parse] above stands
    for the parser on the texts that denote a story; this module has the
    values themselves, the reads [App] makes of them, and the sessions in
    which an answer need not be a story. *)

Module Untyped.
Import App.

#[warnings="-register-all"]
Inductive JValue :=
| JNull
| JBool (b : bool)
| JNumber (lexeme : string)
| JString (s : string)
| JArray (elements : list JValue)
| JObject (members : list (string * JValue)).

(** A value the program holds; [None] is [undefined]. *)
Definition Value : Type := option JValue.

(** The own property [name] of an object with these members. *)
Fixpoint own (members : list (string * JValue)) (name : string) : Value :=
  match members with
  | [] => None
  | (n, v) :: rest => if String.eqb n name then Some v else own rest name
  end.

(** The properties [App] reads of a story.  None of them is a property of
    the prototype of strings, numbers, booleans, arrays or objects. *)
Inductive Key :=
| k_meta | k_educational_concept
| k_storyboard | k_audio_text
| k_visuals | k_image_prompt.

Definition key_name (k : Key) : string :=
  match k with
  | k_meta => "meta"
  | k_educational_concept => "educational_concept"
  | k_storyboard => "storyboard"
  | k_audio_text => "audio_text"
  | k_visuals => "visuals"
  | k_image_prompt => "image_prompt"
  end.

(** [o.key].  Reading a property of [undefined] or [null] throws a
    TypeError ([None]); a property that is not there is [undefined]. *)
Definition get (o : Value) (k : Key) : option Value :=
  match o with
  | None | Some JNull => None
  | Some (JObject members) => Some (own members (key_name k))
  | Some _ => Some None
  end.

(** [story.meta.educational_concept], which the updater given to
    [setPreviousTopics] reads. *)
Definition read_concept (story : Value) : option Value :=
  m ← get story k_meta; get m k_educational_concept.

(** [story.storyboard.audio_text] and [story.visuals.image_prompt], the
    arguments of the two media calls. *)
Definition read_audio_text (story : Value) : option Value :=
  sb ← get story k_storyboard; get sb k_audio_text.

Definition read_image_prompt (story : Value) : option Value :=
  vis ← get story k_visuals; get vis k_image_prompt.

(** *** The shape [types.ts] declares *)

Definition as_string (v : Value) : option string :=
  match v with
  | Some (JString s) => Some s
  | _ => None
  end.

Definition as_boolean (v : Value) : option bool :=
  match v with
  | Some (JBool b) => Some b
  | _ => None
  end.

Definition as_strings (v : Value) : option (list string) :=
  match v with
  | Some (JArray elements) => mapM (fun x => as_string (Some x)) elements
  | _ => None
  end.

Definition as_object (v : Value) : option (list (string * JValue)) :=
  match v with
  | Some (JObject members) => Some members
  | _ => None
  end.

(** The story a value is, when it has the shape of [StoryResponse]: three
    objects with the declared properties, each of the declared type. *)
Definition as_StoryResponse (v : JValue) : option StoryResponse :=
  top ← as_object (Some v);
  m ← as_object (own top "meta");
  sb ← as_object (own top "storyboard");
  vis ← as_object (own top "visuals");
  language ← as_string (own m "detected_language");
  concept ← as_string (own m "educational_concept");
  used ← as_boolean (own m "context_used");
  voice ← as_string (own m "character_voice_profile");
  story_title ← as_string (own sb "title");
  shown ← as_string (own sb "display_text");
  spoken ← as_string (own sb "audio_text");
  question ← as_string (own sb "interactive_question");
  suggested ← as_strings (own sb "suggested_questions");
  prompt ← as_string (own vis "image_prompt");
  Some {| meta := {| detected_language := language;
                     educational_concept := concept;
                     context_used := used;
                     character_voice_profile := voice |};
          storyboard := {| title := story_title;
                           display_text := shown;
                           audio_text := spoken;
                           interactive_question := question;
                           suggested_questions := suggested |};
          visuals := {| image_prompt := prompt |} |}.

(** *** [generateStory], with the parser as it is *)

Definition generateStory (JSON_parse : string -> option JValue)
    (model : list Story.Part -> Outcome (option string))
    (imageFile : option File) (question : string)
    (childContext : ChildContext) (previousTopics : list string)
  : Outcome JValue :=
  match Story.buildParts imageFile question childContext previousTopics with
  | Rejected e => Rejected e
  | Fulfilled parts =>
      match model parts with
      | Rejected e => Rejected e
      | Fulfilled None | Fulfilled (Some EmptyString) =>
          Rejected "No response from AI"
      | Fulfilled (Some t) =>
          let jsonStr := Story.trim (Story.replace_fences t) in
          match JSON_parse jsonStr with
          | Some v => Fulfilled v
          | None => Rejected "SyntaxError"
          end
      end
  end.

(** *** The media stage of [processStoryGeneration]

    The inner [try] block with its [catch], and the [setAppState] after
    it, for any value of [story]: the setters called, applied to [a], and
    what is written with [console.error].  The elements of the array given
    to [Promise.allSettled] are evaluated in order, so the speech call is
    made before the image prompt is read.  [generateSpeech] and
    [generateIllustration] are the two services, from their argument to
    their settled promise. *)

Definition MEDIA_ERROR : string := "Media generation error TypeError".

Definition media_stage
    (generateSpeech generateIllustration : Value -> Outcome string)
    (story : Value) (a : State) : State * list string :=
  match read_audio_text story with
  | None => (setAppState PLAYING a, [MEDIA_ERROR])
  | Some audio_text =>
      let audioPromise := generateSpeech audio_text in
      match read_image_prompt story with
      | None => (setAppState PLAYING a, [MEDIA_ERROR])
      | Some image_prompt =>
          let imagePromise := generateIllustration image_prompt in
          processStoryGeneration_media audioPromise imagePromise a
      end
  end.

(** *** Sessions whose answers need not be stories *)

Inductive Event :=
| StartAdventure (file : option File) (question : string)
                 (context : ChildContext)
| SuggestedQuestionClick (question : string)
| Reset
| StorySettled (i : nat) (o : Outcome JValue)
| MediaSettled (i : nat) (audioResult imageResult : Outcome string).

(** The event has the shape the types promise: a fulfilled story call
    brings a story. *)
Definition well_shaped (e : Event) : bool :=
  match e with
  | StorySettled _ (Fulfilled v) =>
      match as_StoryResponse v with
      | Some _ => true
      | None => false
      end
  | _ => true
  end.

(** How far a session has been followed: to a state; not at all, one of
    its events being impossible or not offered by the view; or up to a
    story call that fulfilled with a value [v] that is no story.  From
    there on the session is not described by the component's declared
    state. *)
Inductive Run :=
| Ran (s : Session)
| Impossible
| IllShaped (v : JValue).

Definition awaits_story (s : Session) (i : nat) : bool :=
  match pending s !! i with
  | Some (AwaitStory _ _ _ _) => true
  | _ => false
  end.

(** The event among those of [App], or the value that is no story. *)
Definition typed (e : Event) : JValue + App.Event :=
  match e with
  | StartAdventure file question context =>
      inr (App.StartAdventure file question context)
  | SuggestedQuestionClick question =>
      inr (App.SuggestedQuestionClick question)
  | Reset => inr App.Reset
  | StorySettled i (Fulfilled v) =>
      match as_StoryResponse v with
      | Some story => inr (App.StorySettled i (Fulfilled story))
      | None => inl v
      end
  | StorySettled i (Rejected reason) =>
      inr (App.StorySettled i (Rejected reason))
  | MediaSettled i audioResult imageResult =>
      inr (App.MediaSettled i audioResult imageResult)
  end.

Fixpoint view_run (s : Session) (es : list Event) : Run :=
  match es with
  | [] => Ran s
  | e :: es' =>
      match typed e with
      | inr e' =>
          match App.view_step s e' with
          | Some s' => view_run s' es'
          | None => Impossible
          end
      | inl v =>
          match e with
          | StorySettled i _ =>
              if awaits_story s i then IllShaped v else Impossible
          | _ => Impossible
          end
      end
  end.

(** The value of [Sample.story], and the value of the text [{}]. *)
Definition sample_story : JValue :=
  JObject
    [("meta",
      JObject [("detected_language", JString "en");
               ("educational_concept", JString "gravity");
               ("context_used", JBool false);
               ("character_voice_profile", JString "brave")]);
     ("storyboard",
      JObject [("title", JString "The Invisible Magnet");
               ("display_text", JString "The ball fell. [SFX: Thud]");
               ("audio_text", JString "The ball fell. THUD!");
               ("interactive_question", JString "What pulls the ball down?");
               ("suggested_questions",
                JArray [JString "Why do birds not fall?";
                        JString "Is there gravity on the Moon?"])]);
     ("visuals", JObject [("image_prompt", JString "A brave crayon robot")])].

Definition empty_object : JValue := JObject [].

End Untyped.

(** * Theorems *)

(** ** The WAV encoder *)

Section WavFacts.
Import Wav.

Lemma store_length bs : forall view off, length (store view off bs) = length view.
Proof.
  induction bs as [|b bs IH]; intros view off; simpl; [done|].
  by rewrite IH, length_insert.
Qed.

Lemma store_app_l bs : forall hdr tail off,
  off + length bs <= length hdr ->
  store (hdr ++ tail) off bs = store hdr off bs ++ tail.
Proof.
  induction bs as [|b bs IH]; intros hdr tail off Hfit; simpl in *; [done|].
  rewrite insert_app_l by lia.
  apply IH. rewrite length_insert. lia.
Qed.

Lemma setUint8_app hdr tail off v :
  off + 1 <= length hdr ->
  setUint8 (hdr ++ tail) off v = Some (store hdr off [ToUint8 v] ++ tail).
Proof.
  intros Hfit. unfold setUint8.
  rewrite decide_True by (rewrite length_app; lia).
  by rewrite store_app_l.
Qed.

Lemma setUint16_app hdr tail off v le :
  off + 2 <= length hdr ->
  setUint16 (hdr ++ tail) off v le
  = Some (store hdr off (bytes_of 2 (ToUint16 v) le) ++ tail).
Proof.
  intros Hfit. unfold setUint16.
  rewrite decide_True by (rewrite length_app; lia).
  rewrite store_app_l; [done|]. by destruct le.
Qed.

Lemma setUint32_app hdr tail off v le :
  off + 4 <= length hdr ->
  setUint32 (hdr ++ tail) off v le
  = Some (store hdr off (bytes_of 4 (ToUint32 v) le) ++ tail).
Proof.
  intros Hfit. unfold setUint32.
  rewrite decide_True by (rewrite length_app; lia).
  rewrite store_app_l; [done|]. by destruct le.
Qed.

Lemma writeString_from_app s : forall hdr tail offset i,
  offset + i + String.length s <= length hdr ->
  writeString_from (hdr ++ tail) offset i s
  = Some (store hdr (offset + i) (Str.codes s) ++ tail).
Proof.
  induction s as [|c s IH]; intros hdr tail offset i Hfit; simpl in *; [done|].
  rewrite setUint8_app by lia. simpl.
  rewrite IH by (rewrite length_insert; lia).
  unfold Str.codes; simpl. unfold ToUint8, Str.charCodeAt.
  rewrite Z.mod_small by (pose proof (nat_ascii_bounded c); lia).
  by rewrite Nat.add_succ_r.
Qed.

Lemma writeString_app s hdr tail offset :
  offset + String.length s <= length hdr ->
  writeString (hdr ++ tail) offset s
  = Some (store hdr offset (Str.codes s) ++ tail).
Proof.
  intros Hfit. unfold writeString.
  rewrite writeString_from_app by lia. by rewrite Nat.add_0_r.
Qed.

Lemma TypedArray_set_app hdr tail src :
  length tail = length src ->
  TypedArray_set (hdr ++ tail) src (length hdr) = Some (hdr ++ src).
Proof.
  intros Hlen. unfold TypedArray_set.
  rewrite decide_True by (rewrite length_app; lia).
  rewrite take_app_length.
  rewrite drop_ge by (rewrite length_app; lia).
  by rewrite app_nil_r.
Qed.

Local Ltac write_step := first
    [ rewrite writeString_app by (simpl; lia)
    | rewrite setUint32_app by (simpl; lia)
    | rewrite setUint16_app by (simpl; lia) ];
    cbn -[app writeString setUint8 setUint16 setUint32 TypedArray_set
          byte_of ToUint32 ToUint16 Z.mul Z.div Z.add].

(** The encoder never throws, and its output is header then samples. *)
Lemma pcmToWav_eq pcm r :
  pcmToWav pcm r = Some (header_bytes (length pcm) r ++ pcm).
Proof.
  unfold pcmToWav, new_ArrayBuffer.
  rewrite replicate_add.
  set (tail := replicate (length pcm) 0%Z).
  cbn [replicate].
  do 13 write_step.
  match goal with |- TypedArray_set (?h ++ _) _ _ = _ =>
    change 44 with (length h) end.
  rewrite TypedArray_set_app by (subst tail; apply length_replicate).
  reflexivity.
Qed.

Lemma le_value_bytes_of_4 x :
  (0 <= x < 4294967296)%Z -> le_value (bytes_of 4 x true) = x.
Proof.
  intros Hx. cbn -[Z.mul Z.div Z.add Z.modulo Z.pow]. unfold byte_of.
  change (2 ^ (8 * Z.of_nat 0))%Z with 1%Z.
  change (2 ^ (8 * Z.of_nat 1))%Z with 256%Z.
  change (2 ^ (8 * Z.of_nat 2))%Z with 65536%Z.
  change (2 ^ (8 * Z.of_nat 3))%Z with 16777216%Z.
  Z.div_mod_to_equations. lia.
Qed.

Lemma bytes_of_is_byte w x le : Forall is_byte (bytes_of w x le).
Proof.
  assert (H : Forall is_byte (List.map (byte_of x) (seq 0 w))).
  { apply Forall_forall. intros b Hb. apply list_elem_of_In, in_map_iff in Hb.
    destruct Hb as (i & <- & _). unfold is_byte, byte_of.
    apply Z.mod_pos_bound. lia. }
  unfold bytes_of. destruct le; [done|]. by apply Forall_rev.
Qed.

Lemma byteRate_exact r : (r * 1 * 16 / 8 = 2 * r)%Z.
Proof. Z.div_mod_to_equations. lia. Qed.

Lemma header_bytes_is_byte n r : Forall is_byte (header_bytes n r).
Proof.
  unfold header_bytes.
  repeat (apply Forall_app; split); try apply bytes_of_is_byte;
    by (apply Forall_forall; intros b Hb; vm_compute in Hb;
        repeat (apply elem_of_cons in Hb as [->|Hb]; [unfold is_byte; lia|]);
        inversion Hb).
Qed.

(** The layout for every input: the four 32-bit fields hold their values
    reduced modulo 2^32, as [setUint32] stores them. *)
Lemma pcmToWav_layout_wrapping pcm r :
  exists wav,
    pcmToWav pcm r = Some wav /\
    length wav = 44 + length pcm /\
    Forall is_byte (take 44 wav) /\
    slice 0 4 wav = Str.codes "RIFF" /\
    le_value (slice 4 4 wav) = ToUint32 (36 + Z.of_nat (length pcm)) /\
    slice 8 4 wav = Str.codes "WAVE" /\
    slice 12 4 wav = Str.codes "fmt " /\
    le_value (slice 16 4 wav) = 16%Z /\
    le_value (slice 20 2 wav) = 1%Z /\
    le_value (slice 22 2 wav) = 1%Z /\
    le_value (slice 24 4 wav) = ToUint32 r /\
    le_value (slice 28 4 wav) = ToUint32 (2 * r) /\
    le_value (slice 32 2 wav) = 2%Z /\
    le_value (slice 34 2 wav) = 16%Z /\
    slice 36 4 wav = Str.codes "data" /\
    le_value (slice 40 4 wav) = ToUint32 (Z.of_nat (length pcm)) /\
    drop 44 wav = pcm.
Proof.
  exists (header_bytes (length pcm) r ++ pcm).
  split; [apply pcmToWav_eq|].
  split; [by rewrite length_app|].
  split.
  { rewrite take_app_length' by reflexivity. apply header_bytes_is_byte. }
  assert (H32 : forall x, (0 <= ToUint32 x < 4294967296)%Z)
    by (intros x; apply Z.mod_pos_bound; lia).
  rewrite <- (byteRate_exact r).
  repeat split;
    try reflexivity;
    try (apply (le_value_bytes_of_4 (ToUint32 _)), H32).
Qed.

(** C2, as amended.  For every PCM buffer of [n] bytes with
    [36 + n < 2^32] and every integer sample rate [0 <= r < 2^31],
    [pcmToWav] returns exactly [44 + n] bytes: a header of 44 bytes whose
    multi-byte fields are little-endian, holding "RIFF", [36 + n], "WAVE",
    "fmt ", the format-chunk size 16, audio format 1 (PCM), 1 channel,
    sample rate [r], byte rate [2 r], block align 2, 16 bits per sample,
    "data" and [n]; then the input bytes, unchanged. *)
Theorem pcmToWav_container pcm r :
  (0 <= r < 2 ^ 31)%Z ->
  (36 + Z.of_nat (length pcm) < 2 ^ 32)%Z ->
  exists wav,
    pcmToWav pcm r = Some wav /\
    length wav = 44 + length pcm /\
    Forall is_byte (take 44 wav) /\
    slice 0 4 wav = Str.codes "RIFF" /\
    le_value (slice 4 4 wav) = (36 + Z.of_nat (length pcm))%Z /\
    slice 8 4 wav = Str.codes "WAVE" /\
    slice 12 4 wav = Str.codes "fmt " /\
    le_value (slice 16 4 wav) = 16%Z /\
    le_value (slice 20 2 wav) = 1%Z /\
    le_value (slice 22 2 wav) = 1%Z /\
    le_value (slice 24 4 wav) = r /\
    le_value (slice 28 4 wav) = (2 * r)%Z /\
    le_value (slice 32 2 wav) = 2%Z /\
    le_value (slice 34 2 wav) = 16%Z /\
    slice 36 4 wav = Str.codes "data" /\
    le_value (slice 40 4 wav) = Z.of_nat (length pcm) /\
    drop 44 wav = pcm.
Proof.
  intros Hr Hn.
  destruct (pcmToWav_layout_wrapping pcm r) as (wav & H).
  exists wav. unfold ToUint32 in H.
  rewrite !Z.mod_small in H by lia. exact H.
Qed.

(** The specification's own example: [[1; 2; 3; 4]] at 24000 Hz. *)
Lemma pcmToWav_container_witness :
  (0 <= 24000 < 2 ^ 31)%Z /\
  (36 + Z.of_nat (length [1; 2; 3; 4]%Z) < 2 ^ 32)%Z /\
  exists wav,
    pcmToWav [1; 2; 3; 4]%Z 24000 = Some wav /\
    length wav = 48 /\
    Forall is_byte (take 44 wav) /\
    slice 0 4 wav = Str.codes "RIFF" /\
    le_value (slice 4 4 wav) = 40%Z /\
    slice 8 4 wav = Str.codes "WAVE" /\
    slice 12 4 wav = Str.codes "fmt " /\
    le_value (slice 16 4 wav) = 16%Z /\
    le_value (slice 20 2 wav) = 1%Z /\
    le_value (slice 22 2 wav) = 1%Z /\
    le_value (slice 24 4 wav) = 24000%Z /\
    le_value (slice 28 4 wav) = 48000%Z /\
    le_value (slice 32 2 wav) = 2%Z /\
    le_value (slice 34 2 wav) = 16%Z /\
    slice 36 4 wav = Str.codes "data" /\
    le_value (slice 40 4 wav) = 4%Z /\
    drop 44 wav = [1; 2; 3; 4]%Z.
Proof.
  split; [lia|]. split; [simpl; lia|].
  apply (pcmToWav_container [1; 2; 3; 4]%Z 24000); simpl; lia.
Defined.

(** The same example, byte for byte. *)
Example pcmToWav_example :
  pcmToWav [1; 2; 3; 4]%Z 24000 =
  Some [82; 73; 70; 70; 40; 0; 0; 0; 87; 65; 86; 69; 102; 109; 116; 32;
        16; 0; 0; 0; 1; 0; 1; 0; 192; 93; 0; 0; 128; 187; 0; 0; 2; 0; 16; 0;
        100; 97; 116; 97; 4; 0; 0; 0; 1; 2; 3; 4]%Z.
Proof. vm_compute. reflexivity. Qed.

(** C2 as stated fails where a field does not fit in 32 bits: at a sample
    rate of 2^31 the byte-rate field holds 0, not [2 r = 2^32]. *)
Lemma pcmToWav_byte_rate_wraps :
  exists wav,
    pcmToWav [] (2 ^ 31) = Some wav /\
    le_value (slice 28 4 wav) = 0%Z /\
    le_value (slice 28 4 wav) <> (2 * 2 ^ 31)%Z.
Proof.
  eexists. split; [vm_compute; reflexivity|]. split; [reflexivity|].
  vm_compute. discriminate.
Qed.

(** Likewise for the two length fields: for a buffer of 2^32 - 36 bytes
    the RIFF size field holds 0. *)
Lemma pcmToWav_riff_size_wraps r :
  exists wav,
    pcmToWav (replicate (Z.to_nat (2 ^ 32 - 36)) 0%Z) r = Some wav /\
    le_value (slice 4 4 wav) = 0%Z.
Proof.
  destruct (pcmToWav_layout_wrapping
              (replicate (Z.to_nat (2 ^ 32 - 36)) 0%Z) r)
    as (wav & Hwav & _ & _ & _ & Hsize & _).
  exists wav. split; [exact Hwav|].
  rewrite Hsize, length_replicate, Z2Nat.id by done. reflexivity.
Qed.

End WavFacts.

(** ** Fence stripping *)

Section FenceFacts.
Import Story.

Lemma lex_step_LF m m' : lex_step m Str.LF = Some m' -> m = Outside /\ m' = Outside.
Proof. destruct m; vm_compute; intros H; inversion H; auto. Qed.

Lemma lex_step_backtick m m' :
  lex_step m Str.BACKTICK = Some m' -> m = InString /\ m' = InString.
Proof. destruct m; vm_compute; intros H; inversion H; auto. Qed.

Lemma starts_with_cons a p c s :
  Str.starts_with (String a p) (String c s)
  = Ascii.eqb a c && Str.starts_with p s.
Proof. reflexivity. Qed.

Lemma append_nil_l s : EmptyString +:+ s = s.
Proof. reflexivity. Qed.

Lemma append_cons c s t : String c s +:+ t = String c (s +:+ t).
Proof. reflexivity. Qed.

Lemma starts_with_nil a p : Str.starts_with (String a p) EmptyString = false.
Proof. reflexivity. Qed.

Lemma lex_from_cons m c s :
  lex_from m (String c s)
  = match lex_step m c with Some m' => lex_from m' s | None => false end.
Proof. reflexivity. Qed.

(** One character of a fence against one character of the text. *)
Local Ltac fence_char Hlex :=
  rewrite starts_with_cons;
  match goal with |- (Ascii.eqb ?a ?c && _) = false =>
    destruct (Ascii.eqb_spec a c) as [<-|]; [|reflexivity] end;
  rewrite andb_true_l;
  try (rewrite lex_from_cons in Hlex;
       match type of Hlex with context [lex_step ?m ?a] =>
         let r := eval vm_compute in (lex_step m a) in
         change (lex_step m a) with r in Hlex end;
       cbv iota beta in Hlex).

Lemma no_close_fence_here m c s t :
  lex_from m (String c s) = true -> no_backtick_first t ->
  Str.starts_with FENCE_CLOSE (String c (s +:+ t)) = false.
Proof.
  intros Hlex Ht. rewrite lex_from_cons in Hlex.
  change FENCE_CLOSE with (String Str.LF "```").
  rewrite starts_with_cons.
  destruct (Ascii.eqb_spec Str.LF c) as [<-|]; [|reflexivity].
  destruct (lex_step m Str.LF) as [m'|] eqn:Hstep; [|discriminate].
  apply lex_step_LF in Hstep as [-> ->]. rewrite andb_true_l.
  destruct s as [|c1 s]; rewrite ?append_nil_l, ?append_cons.
  - destruct t as [|c1 t]; [reflexivity|].
    rewrite starts_with_cons.
    destruct (Ascii.eqb_spec "`"%char c1) as [<-|]; [|reflexivity].
    by destruct Ht.
  - fence_char Hlex. discriminate.
Qed.

(** Inside a string literal the opening fence cannot be completed: its
    last character is a line feed. *)
Lemma no_open_fence_here m c s t :
  lex_from m (String c s) = true ->
  Str.starts_with FENCE_OPEN (String c (s +:+ t)) = false.
Proof.
  intros Hlex.
  change FENCE_OPEN with (String Str.BACKTICK ("``json" +:+ String Str.LF EmptyString)).
  rewrite lex_from_cons in Hlex. rewrite starts_with_cons.
  destruct (Ascii.eqb_spec Str.BACKTICK c) as [<-|]; [|reflexivity].
  destruct (lex_step m Str.BACKTICK) as [m'|] eqn:Hstep; [|discriminate].
  apply lex_step_backtick in Hstep as [-> ->]. rewrite andb_true_l.
  change ("``json" +:+ String Str.LF EmptyString)
    with (String Str.BACKTICK (String Str.BACKTICK (String "j" (String "s"
            (String "o" (String "n" (String Str.LF EmptyString))))))).
  do 7 (destruct s as [|c1 s]; [discriminate Hlex|];
        rewrite append_cons; fence_char Hlex; try discriminate Hlex).
Qed.

(** No fence begins inside a JSON body, and none straddles its end unless
    what follows begins with a backtick. *)
Lemma replace_fences_json s : forall m t,
  lex_from m s = true -> no_backtick_first t ->
  replace_fences_from 0 (s +:+ t) = s +:+ replace_fences_from 0 t.
Proof.
  induction s as [|c s IH]; intros m t Hlex Ht; [reflexivity|].
  rewrite append_cons. cbn [replace_fences_from].
  rewrite (no_open_fence_here m), (no_close_fence_here m) by done.
  rewrite append_cons. f_equal. rewrite lex_from_cons in Hlex.
  destruct (lex_step m c) as [m'|]; [|discriminate]. by apply (IH m').
Qed.

Lemma append_nil_r s : s +:+ EmptyString = s.
Proof. induction s as [|c s IH]; [reflexivity|]. by rewrite append_cons, IH. Qed.

Lemma append_assoc (a b c : string) : (a +:+ b) +:+ c = a +:+ (b +:+ c).
Proof.
  induction a as [|x a IH]; [reflexivity|]. by rewrite !append_cons, IH.
Qed.

Lemma replace_fences_fenced s :
  replace_fences (fenced s) = replace_fences_from 0 (s +:+ FENCE_CLOSE).
Proof. reflexivity. Qed.

Lemma FENCE_CLOSE_no_backtick : no_backtick_first FENCE_CLOSE.
Proof. discriminate. Qed.

(** Stripping leaves a JSON body as it is, and unwraps a fenced one. *)
Lemma replace_fences_body s :
  lex_from Outside s = true ->
  replace_fences s = s /\ replace_fences (fenced s) = s.
Proof.
  intros Hlex. split.
  - unfold replace_fences. rewrite <- (append_nil_r s) at 1.
    rewrite (replace_fences_json s Outside) by done.
    apply append_nil_r.
  - rewrite replace_fences_fenced.
    rewrite (replace_fences_json s Outside)
      by auto using FENCE_CLOSE_no_backtick.
    apply append_nil_r.
Qed.

(** *** Every JSON text is a JSON body *)

Lemma stays_nil m : stays m EmptyString.
Proof. by intros t. Qed.

Lemma stays_app m a b : stays m a -> stays m b -> stays m (a +:+ b).
Proof. intros Ha Hb t. by rewrite append_assoc, Ha, Hb. Qed.

Lemma stays_cons m c s : lex_step m c = Some m -> stays m s -> stays m (String c s).
Proof. intros Hc Hs t. by rewrite append_cons, lex_from_cons, Hc, Hs. Qed.

Lemma stays_char m c : lex_step m c = Some m -> stays m (String c EmptyString).
Proof. intros Hc. apply stays_cons; [done|apply stays_nil]. Qed.

(** From [mem_ascii c cs = true] to one case per character of [cs]. *)
Local Ltac ascii_cases H :=
  unfold is_digit, is_hex in H;
  cbn [mem_ascii existsb list_ascii_of_string] in H;
  repeat (apply orb_true_iff in H as [H|H]);
  try discriminate H;
  apply Ascii.eqb_eq in H; subst.

Lemma is_json_space_stays c : is_json_space c = true -> lex_step Outside c = Some Outside.
Proof.
  unfold is_json_space. intros H.
  rewrite <- (ascii_nat_embedding c).
  repeat (apply orb_true_iff in H as [H|H]);
    apply Nat.eqb_eq in H; rewrite H; reflexivity.
Qed.

Lemma is_digit_stays c : is_digit c = true -> lex_step Outside c = Some Outside.
Proof. intros H. ascii_cases H; reflexivity. Qed.

Lemma is_hex_stays c : is_hex c = true -> lex_step InString c = Some InString.
Proof. intros H. ascii_cases H; reflexivity. Qed.

Lemma json_ws_stays w : json_ws w -> stays Outside w.
Proof.
  induction 1 as [|c w Hc _ IH]; [apply stays_nil|].
  apply stays_cons; [by apply is_json_space_stays|done].
Qed.

Lemma json_digits_stays d : json_digits d -> stays Outside d.
Proof.
  induction 1 as [c Hc|c d Hc _ IH].
  - by apply stays_char, is_digit_stays.
  - apply stays_cons; [by apply is_digit_stays|done].
Qed.

Lemma json_number_stays n : json_number n -> stays Outside n.
Proof.
  intros [sign i f e Hsign Hi Hf He].
  repeat apply stays_app.
  - destruct Hsign as [->| ->]; [apply stays_nil|by apply stays_char].
  - destruct Hi as [|c Hc _|c d Hc _ Hd].
    + by apply stays_char.
    + by apply stays_char, is_digit_stays.
    + apply stays_cons; [by apply is_digit_stays|by apply json_digits_stays].
  - destruct Hf as [|d Hd]; [apply stays_nil|].
    apply stays_app; [by apply stays_char|by apply json_digits_stays].
  - destruct He as [|x sg d Hx Hsg Hd]; [apply stays_nil|].
    repeat apply stays_app.
    + destruct Hx as [->| ->]; by apply stays_char.
    + destruct Hsg as [->|[->| ->]]; [apply stays_nil|by apply stays_char..].
    + by apply json_digits_stays.
Qed.

Lemma json_chars_stays cs : json_chars cs -> stays InString cs.
Proof.
  induction 1 as [|c cs Hc Hq Hb _ IH|c cs Hc _ IH|h1 h2 h3 h4 cs H1 H2 H3 H4 _ IH].
  - apply stays_nil.
  - apply stays_cons; [|done]. unfold lex_step.
    apply Ascii.eqb_neq in Hq, Hb. by rewrite Hq, Hb, Hc.
  - intros t. rewrite !append_cons, lex_from_cons.
    change (lex_step InString "\"%char) with (Some Escaped).
    cbv iota. rewrite lex_from_cons.
    assert (Hstep : lex_step Escaped c = Some InString).
    { destruct Hc as [->|Hc]; [reflexivity|]. ascii_cases Hc; reflexivity. }
    rewrite Hstep. apply IH.
  - intros t. repeat rewrite ?append_cons, ?append_nil_l.
    rewrite lex_from_cons.
    change (lex_step InString "\"%char) with (Some Escaped).
    cbv iota. rewrite lex_from_cons.
    change (lex_step Escaped "u"%char) with (Some InString).
    cbv iota.
    rewrite lex_from_cons, (is_hex_stays h1) by done.
    rewrite lex_from_cons, (is_hex_stays h2) by done.
    rewrite lex_from_cons, (is_hex_stays h3) by done.
    rewrite lex_from_cons, (is_hex_stays h4) by done.
    apply IH.
Qed.

Lemma json_string_stays s : json_string s -> stays Outside s.
Proof.
  intros [cs Hcs] t.
  rewrite append_cons, lex_from_cons.
  change (lex_step Outside Str.QUOTE) with (Some InString). cbv iota.
  rewrite append_assoc, (json_chars_stays cs Hcs).
  by rewrite append_cons, lex_from_cons.
Qed.

Lemma json_grammar_stays :
  (forall v, json_value v -> stays Outside v) /\
  (forall es, json_elements es -> stays Outside es) /\
  (forall ms, json_members ms -> stays Outside ms).
Proof.
  apply json_mutual_ind; intros;
    repeat first
      [ assumption
      | apply stays_nil
      | by apply json_ws_stays
      | by apply json_number_stays
      | by apply json_string_stays
      | by apply stays_char
      | apply stays_app ].
Qed.

Lemma json_value_not_empty v : json_value v -> v <> EmptyString.
Proof.
  destruct 1 as [| | |n Hn|s Hs|w Hw|es Hes|w Hw|ms Hms]; try discriminate.
  - destruct Hn as [sign i f e Hsign Hi _ _].
    destruct Hi; destruct Hsign as [->| ->]; discriminate.
  - destruct Hs. discriminate.
Qed.

(** Every text of the JSON grammar is a JSON body. *)
Lemma json_text_is_body s : json_text s -> json_body s.
Proof.
  intros [w1 v w2 H1 Hv H2]. split.
  - pose proof (json_value_not_empty v Hv) as Hne.
    destruct w1; [|discriminate]. destruct v; [done|discriminate].
  - rewrite <- (append_nil_r (w1 +:+ v +:+ w2)).
    destruct json_grammar_stays as (Hvalue & _ & _).
    rewrite (stays_app _ _ _ (json_ws_stays _ H1)
               (stays_app _ _ _ (Hvalue _ Hv) (json_ws_stays _ H2))).
    reflexivity.
Qed.

Example json_text_example : json_text "[1, true]".
Proof.
  apply (text_intro EmptyString "[1, true]" EmptyString);
    [constructor| |constructor].
  apply (value_array "1, true").
  apply (elements_cons EmptyString "1" EmptyString " true");
    [constructor| |constructor|].
  - apply value_number.
    apply (number_intro EmptyString "1" EmptyString EmptyString);
      [by left| |constructor..].
    by apply int_digit.
  - apply (elements_one " " "true" EmptyString); repeat constructor.
Qed.

(** C6.  For every JSON body [s] (every text of the JSON grammar is one),
    the response text made of [s] wrapped in a json fenced code block is
    parsed by [generateStory] to the same result as the bare text [s]: both
    are stripped and trimmed to [trim s], which the platform's parser then
    reads. *)
Theorem fenced_body_parses_like_bare (P : Platform) (s : string) :
  json_body s ->
  parseResponse P (Some (fenced s)) = parseResponse P (Some s) /\
  parseResponse P (Some s)
  = match JSON_parse P (trim s) with
    | Some story => Fulfilled story
    | None => Rejected "SyntaxError"
    end.
Proof.
  intros [Hne Hlex].
  destruct (replace_fences_body s Hlex) as [Hbare Hfenced].
  assert (Hs : parseResponse P (Some s)
               = match JSON_parse P (trim s) with
                 | Some story => Fulfilled story
                 | None => Rejected "SyntaxError"
                 end).
  { destruct s as [|c s]; [done|]. unfold parseResponse. by rewrite Hbare. }
  split; [|exact Hs]. rewrite Hs.
  change (parseResponse P (Some (fenced s)))
    with (match JSON_parse P (trim (replace_fences (fenced s))) with
          | Some story => Fulfilled story
          | None => Rejected "SyntaxError"
          end).
  by rewrite Hfenced.
Qed.

Lemma fenced_body_parses_like_bare_witness :
  json_body Sample.body /\
  parseResponse Sample.platform (Some (fenced Sample.body))
  = parseResponse Sample.platform (Some Sample.body) /\
  parseResponse Sample.platform (Some Sample.body)
  = match JSON_parse Sample.platform (trim Sample.body) with
    | Some story => Fulfilled story
    | None => Rejected "SyntaxError"
    end.
Proof.
  assert (H : json_body Sample.body)
    by (split; [discriminate | vm_compute; reflexivity]).
  split; [exact H|].
  exact (fenced_body_parses_like_bare Sample.platform Sample.body H).
Defined.

(** The sample text does parse, fenced or not. *)
Example fenced_sample_parses :
  parseResponse Sample.platform (Some (fenced Sample.body))
  = Fulfilled Sample.story.
Proof. vm_compute. reflexivity. Qed.

End FenceFacts.

(** Outside JSON the two can differ: a body that ends in an unfinished
    opening fence loses it to the closing one. *)
Example fence_straddles_non_json :
  Story.replace_fences (Story.fenced "```json") = "```" /\
  Story.replace_fences "```json" = "```json".
Proof. split; reflexivity. Qed.

(** ** The context object as a JSON text *)

Section ContextTextFacts.
Import Story ContextText.

Lemma quote_in_quotes s : quote s = in_quotes (quote_chars s).
Proof. reflexivity. Qed.

Lemma join_comma_join items : join_comma items = Highlight.join "," items.
Proof.
  induction items as [|x [|y l] IH]; [done..|].
  change (join_comma (x :: y :: l)) with (x +:+ "," +:+ join_comma (y :: l)).
  by rewrite IH.
Qed.

(** [JSON.stringify] writes the object the specification describes. *)
Lemma JSON_stringify_context_text o :
  JSON_stringify o
  = context_text (quote (child_name o)) (quote (character_name o))
      (List.map quote (prev_topics o)).
Proof.
  unfold JSON_stringify, context_text, stringify_array.
  rewrite join_comma_join, !append_assoc. reflexivity.
Qed.

(** An escaped character is read back as the character it stands for. *)
Lemma read_quote_char c rest :
  exists a r,
    quote_char c +:+ rest = String a r /\
    Ascii.eqb a Str.QUOTE = false /\
    read_char (String a r) = Some (c, rest).
Proof.
  destruct c as [[] [] [] [] [] [] [] []];
    (eexists; eexists; split; [reflexivity|]; split; reflexivity).
Qed.

Lemma quote_chars_length s : String.length s <= String.length (quote_chars s).
Proof.
  induction s as [|c s IH]; [done|]. cbn [quote_chars].
  destruct (read_quote_char c (quote_chars s)) as (a & r & -> & _ & Hread).
  assert (String.length (quote_chars s) <= String.length r).
  { clear -Hread. unfold read_char in Hread.
    repeat (match type of Hread with
            | context [match ?x with _ => _ end] => destruct x eqn:?
            end; try discriminate);
      injection Hread as _ <-; cbn [String.length]; lia. }
  cbn [String.length]. lia.
Qed.

Lemma read_chars_quote_chars s : forall fuel,
  String.length s < fuel ->
  read_chars fuel (quote_chars s +:+ String Str.QUOTE EmptyString) = Some s.
Proof.
  induction s as [|c s IH]; intros fuel Hfuel.
  - destruct fuel; [cbn in Hfuel; lia|]. reflexivity.
  - destruct fuel as [|fuel]; [lia|].
    cbn [quote_chars]. rewrite append_assoc.
    destruct (read_quote_char c
                (quote_chars s +:+ String Str.QUOTE EmptyString))
      as (a & r & -> & Ha & Hread).
    cbn [read_chars]. rewrite Ha, Hread, IH; [done|].
    cbn [String.length] in Hfuel. lia.
Qed.

Lemma append_length a b :
  String.length (a +:+ b) = String.length a + String.length b.
Proof.
  induction a as [|c a IH]; [done|].
  rewrite append_cons. cbn [String.length]. by rewrite IH.
Qed.

(** A quoted string is a token that denotes the string. *)
Lemma string_value_quote s : string_value (quote s) = Some s.
Proof.
  unfold quote, string_value. rewrite Ascii.eqb_refl.
  apply read_chars_quote_chars.
  rewrite append_length. pose proof (quote_chars_length s).
  cbn [String.length]. lia.
Qed.

(** ... and a token of the JSON grammar. *)
Lemma json_chars_quote_char c cs :
  json_chars cs -> json_chars (quote_char c +:+ cs).
Proof.
  intros H.
  destruct c as [[] [] [] [] [] [] [] []];
    first
      [ apply chars_unescaped;
        [reflexivity | discriminate | discriminate | assumption]
      | apply chars_escape;
        [first [left; reflexivity | right; reflexivity] | assumption]
      | apply (chars_unicode "0" "0"); [reflexivity.. | assumption] ].
Qed.

Lemma json_chars_quote_chars s : json_chars (quote_chars s).
Proof.
  induction s as [|c s IH]; [constructor|].
  cbn [quote_chars]. by apply json_chars_quote_char.
Qed.

Lemma json_string_quote s : json_string (quote s).
Proof. apply string_intro, json_chars_quote_chars. Qed.

Lemma json_elements_quoted x l :
  json_elements (join_comma (List.map quote (x :: l))).
Proof.
  revert x. induction l as [|y l IH]; intros x.
  - cbn [List.map join_comma]. rewrite <- (append_nil_r (quote x)).
    apply (elements_one EmptyString (quote x) EmptyString);
      [constructor | apply value_string, json_string_quote | constructor].
  - apply (elements_cons EmptyString (quote x) EmptyString
             (join_comma (List.map quote (y :: l))));
      [constructor | apply value_string, json_string_quote | constructor
      | apply IH].
Qed.

Lemma json_value_stringify_array l : json_value (stringify_array l).
Proof.
  destruct l as [|x l].
  - apply (value_empty_array EmptyString). constructor.
  - apply value_array, json_elements_quoted.
Qed.

(** What [JSON.stringify] writes is a JSON text. *)
Lemma json_text_JSON_stringify o : json_text (JSON_stringify o).
Proof.
  pose (m3 := quote "prev_topics" +:+ ":"
              +:+ stringify_array (prev_topics o) +:+ EmptyString).
  pose (m2 := quote "character_name" +:+ ":"
              +:+ quote (character_name o) +:+ "," +:+ m3).
  pose (m1 := quote "child_name" +:+ ":"
              +:+ quote (child_name o) +:+ "," +:+ m2).
  assert (H3 : json_members m3).
  { apply (members_one EmptyString (quote "prev_topics") EmptyString
             EmptyString (stringify_array (prev_topics o)) EmptyString);
      first [apply ws_nil | apply json_string_quote
            | apply json_value_stringify_array]. }
  assert (H2 : json_members m2).
  { apply (members_cons EmptyString (quote "character_name") EmptyString
             EmptyString (quote (character_name o)) EmptyString m3);
      first [apply ws_nil | apply json_string_quote
            | apply value_string, json_string_quote | exact H3]. }
  assert (H1 : json_members m1).
  { apply (members_cons EmptyString (quote "child_name") EmptyString
             EmptyString (quote (child_name o)) EmptyString m2);
      first [apply ws_nil | apply json_string_quote
            | apply value_string, json_string_quote | exact H2]. }
  replace (JSON_stringify o) with (EmptyString +:+ ("{" +:+ m1 +:+ "}")
                                   +:+ EmptyString).
  - apply text_intro; [apply ws_nil | by apply value_object | apply ws_nil].
  - unfold JSON_stringify, m1, m2, m3.
    rewrite append_nil_l, !append_assoc, !append_nil_r, ?append_nil_l.
    reflexivity.
Qed.

(** The text determines the object. *)
Lemma quote_chars_inj a : forall b r r',
  quote_chars a +:+ String Str.QUOTE r = quote_chars b +:+ String Str.QUOTE r' ->
  a = b /\ r = r'.
Proof.
  induction a as [|c a IH]; intros [|d b] r r' H; cbn [quote_chars] in H.
  - rewrite !append_nil_l in H. by injection H as ->.
  - rewrite append_nil_l, append_assoc in H.
    destruct (read_quote_char d (quote_chars b +:+ String Str.QUOTE r'))
      as (x & y & Hxy & Hx & _).
    rewrite Hxy in H. injection H as <- _.
    by rewrite Ascii.eqb_refl in Hx.
  - rewrite append_nil_l, append_assoc in H.
    destruct (read_quote_char c (quote_chars a +:+ String Str.QUOTE r))
      as (x & y & Hxy & Hx & _).
    rewrite Hxy in H. injection H as -> _.
    by rewrite Ascii.eqb_refl in Hx.
  - rewrite !append_assoc in H.
    destruct (read_quote_char c (quote_chars a +:+ String Str.QUOTE r))
      as (x & y & Hxy & _ & Hread).
    destruct (read_quote_char d (quote_chars b +:+ String Str.QUOTE r'))
      as (x' & y' & Hxy' & _ & Hread').
    rewrite Hxy, Hxy' in H. rewrite H, Hread' in Hread.
    injection Hread as -> Hrest.
    destruct (IH _ _ _ (eq_sym Hrest)) as [-> ->]. done.
Qed.

Lemma quote_inj a b r r' :
  quote a +:+ r = quote b +:+ r' -> a = b /\ r = r'.
Proof.
  unfold quote. rewrite !append_cons, !append_assoc, !append_cons,
    !append_nil_l.
  intros H. injection H as H. by apply quote_chars_inj in H.
Qed.

Lemma append_inj_l p a b : p +:+ a = p +:+ b -> a = b.
Proof.
  induction p as [|c p IH]; [done|].
  rewrite !append_cons. intros H. injection H as H. auto.
Qed.

Lemma quoted_items_inj l : forall l' r r',
  join_comma (List.map quote l) +:+ String "]"%char r
  = join_comma (List.map quote l') +:+ String "]"%char r' ->
  l = l'.
Proof.
  assert (Hq : forall x t u,
             String "]"%char t <> quote x +:+ u) by (intros x t u; discriminate).
  induction l as [|x l IH]; intros [|y l'] r r' H.
  - done.
  - exfalso. cbn [List.map] in H.
    destruct l' as [|z l']; cbn [List.map join_comma] in H;
      rewrite ?append_assoc, append_nil_l in H; by apply Hq in H.
  - exfalso. cbn [List.map] in H. symmetry in H.
    destruct l as [|z l]; cbn [List.map join_comma] in H;
      rewrite ?append_assoc, append_nil_l in H; by apply Hq in H.
  - destruct l as [|z l], l' as [|z' l'];
      cbn [List.map join_comma] in H; rewrite ?append_assoc in H;
      apply quote_inj in H as [-> H]; try discriminate.
    + done.
    + injection H as H. f_equal. by apply (IH (z' :: l') r r').
Qed.

Lemma JSON_stringify_inj o o' : JSON_stringify o' = JSON_stringify o -> o' = o.
Proof.
  unfold JSON_stringify, stringify_array. intros H.
  apply append_inj_l, append_inj_l, append_inj_l in H.
  apply quote_inj in H as [Hname H].
  apply append_inj_l, append_inj_l, append_inj_l in H.
  apply quote_inj in H as [Hcharacter H].
  apply append_inj_l, append_inj_l, append_inj_l in H.
  rewrite !append_assoc in H. apply append_inj_l in H.
  apply quoted_items_inj in H.
  destruct o, o'. cbn in *. congruence.
Qed.

End ContextTextFacts.

(** ** The request builder *)

Section RequestFacts.
Import Story ContextText.

Lemma buildParts_text imageFile question childContext previousTopics parts :
  buildParts imageFile question childContext previousTopics = Fulfilled parts ->
  exists note,
    last parts
    = Some (text (prompt question
                    (contextObject childContext previousTopics) note)) /\
    note = match imageFile with
           | Some _ => EmptyString
           | None => NO_DRAWING_NOTE
           end.
Proof.
  unfold buildParts, prompt. intros H.
  destruct imageFile as [file|].
  - destruct (fileToGenerativePart file); [|discriminate].
    injection H as <-. exists EmptyString. split; [|done].
    cbn [last]. by rewrite !append_nil_r.
  - injection H as <-. exists NO_DRAWING_NOTE. split; [|done].
    cbn [last]. do 2 f_equal.
    rewrite !append_assoc. reflexivity.
Qed.

(** C7.  Every request [generateStory] builds, with or without an image,
    ends in a text part that carries the serialised context object after
    the words "Context: ".  That text is a JSON text: an object with the
    members [child_name], [character_name] and [prev_topics], in this
    order, whose values are string tokens and an array of string tokens.
    The token of [child_name] denotes the supplied child name, or "Friend"
    when none (or an empty one) is supplied, that of [character_name] the
    supplied character name, or the empty string, and those of
    [prev_topics] the supplied snapshot, topic by topic.  No other context
    gives the same text. *)
Theorem context_object_always_attached
    imageFile question childContext previousTopics parts :
  buildParts imageFile question childContext previousTopics = Fulfilled parts ->
  exists o note name character topics,
    last parts
    = Some (text ("User Question: " +:+ question
                  +:+ String Str.LF "Context: " +:+ JSON_stringify o
                  +:+ note)) /\
    (note = EmptyString \/ note = NO_DRAWING_NOTE) /\
    child_name o = match childName childContext with
                   | Some (String c n) => String c n
                   | Some EmptyString | None => "Friend"
                   end /\
    character_name o = match characterName childContext with
                       | Some n => n
                       | None => EmptyString
                       end /\
    prev_topics o = previousTopics /\
    JSON_stringify o = context_text name character topics /\
    string_value name = Some (child_name o) /\
    string_value character = Some (character_name o) /\
    List.map string_value topics = List.map Some (prev_topics o) /\
    json_text (JSON_stringify o) /\
    (forall o', JSON_stringify o' = JSON_stringify o -> o' = o).
Proof.
  intros H. apply buildParts_text in H as (note & Hlast & Hnote).
  set (o := contextObject childContext previousTopics) in *.
  exists o, note, (quote (child_name o)), (quote (character_name o)),
    (List.map quote (prev_topics o)).
  split; [exact Hlast|].
  split; [destruct imageFile; auto|].
  split; [reflexivity|].
  split; [simpl; by destruct (characterName childContext) as [[|]|]|].
  split; [reflexivity|].
  split; [apply JSON_stringify_context_text|].
  split; [apply string_value_quote|].
  split; [apply string_value_quote|].
  split.
  { rewrite List.map_map. apply List.map_ext. intros t. apply string_value_quote. }
  split; [apply json_text_JSON_stringify|].
  intros o'. apply JSON_stringify_inj.
Qed.

Lemma context_object_always_attached_witness :
  buildParts (Some Sample.drawing) "Why is the sky blue?" Sample.child
             ["gravity"]
  = Fulfilled
      [inlineData "image/png" (Some "iVBORw0KGgo=");
       text ("User Question: Why is the sky blue?"
             +:+ String Str.LF "Context: "
             +:+ context_text (in_quotes "Ada") (in_quotes "Robo")
                   [in_quotes "gravity"])] /\
  exists o note name character topics,
    last [inlineData "image/png" (Some "iVBORw0KGgo=");
          text ("User Question: Why is the sky blue?"
                +:+ String Str.LF "Context: "
                +:+ context_text (in_quotes "Ada") (in_quotes "Robo")
                      [in_quotes "gravity"])]
    = Some (text ("User Question: " +:+ "Why is the sky blue?"
                  +:+ String Str.LF "Context: " +:+ JSON_stringify o
                  +:+ note)) /\
    (note = EmptyString \/ note = NO_DRAWING_NOTE) /\
    child_name o = "Ada" /\
    character_name o = "Robo" /\
    prev_topics o = ["gravity"] /\
    JSON_stringify o = context_text name character topics /\
    string_value name = Some (child_name o) /\
    string_value character = Some (character_name o) /\
    List.map string_value topics = List.map Some (prev_topics o) /\
    json_text (JSON_stringify o) /\
    (forall o', JSON_stringify o' = JSON_stringify o -> o' = o).
Proof.
  assert (H : buildParts (Some Sample.drawing) "Why is the sky blue?"
                Sample.child ["gravity"]
              = Fulfilled
                  [inlineData "image/png" (Some "iVBORw0KGgo=");
                   text ("User Question: Why is the sky blue?"
                         +:+ String Str.LF "Context: "
                         +:+ context_text (in_quotes "Ada") (in_quotes "Robo")
                               [in_quotes "gravity"])])
    by (vm_compute; reflexivity).
  split; [exact H|].
  exact (context_object_always_attached _ _ _ _ _ H).
Defined.

(** Without an image the same object is attached, before the note. *)
Example context_attached_without_image :
  buildParts None "Why?" {| childName := None; characterName := None |} []
  = Fulfilled
      [text (prompt "Why?"
               {| child_name := "Friend"; character_name := EmptyString;
                  prev_topics := [] |} NO_DRAWING_NOTE)].
Proof. vm_compute. reflexivity. Qed.

(** Without an image the same context is attached, before the note; an
    absent name is written as "Friend", a quotation mark in a name with a
    backslash in front. *)
Example context_text_without_image :
  buildParts None "Why?"
    {| childName := None;
       characterName := Some (String Str.QUOTE "Z") |} []
  = Fulfilled
      [text ("User Question: Why?" +:+ String Str.LF "Context: "
             +:+ context_text (in_quotes "Friend")
                   (in_quotes (String "\"%char (String Str.QUOTE "Z"))) []
             +:+ NO_DRAWING_NOTE)].
Proof. vm_compute. reflexivity. Qed.

(** The image part depends on the file alone: two requests built for the
    same file differ in their text part only. *)
Lemma buildParts_same_image file q1 q2 c1 c2 T1 T2 parts1 :
  buildParts file q1 c1 T1 = Fulfilled parts1 ->
  exists parts2,
    buildParts file q2 c2 T2 = Fulfilled parts2 /\
    removelast parts2 = removelast parts1.
Proof.
  unfold buildParts. intros H. destruct file as [f|].
  - destruct (fileToGenerativePart f); [|discriminate].
    injection H as <-. eexists. split; reflexivity.
  - injection H as <-. eexists. split; reflexivity.
Qed.

(** C10.  An empty [childName] and an absent one build the same request:
    both become "Friend" in the context object. *)
Theorem empty_child_name_is_friend
    imageFile question characterName previousTopics :
  let empty := {| childName := Some EmptyString;
                  characterName := characterName |} in
  let absent := {| childName := None; characterName := characterName |} in
  child_name (contextObject empty previousTopics) = "Friend" /\
  child_name (contextObject absent previousTopics) = "Friend" /\
  buildParts imageFile question empty previousTopics
  = buildParts imageFile question absent previousTopics.
Proof. repeat split. Qed.

End RequestFacts.

(** ** The orchestrator *)

Section AppFacts.
Import App.

(** *** The topic history *)

Lemma slice_last_length {A} (n : nat) (l : list A) :
  length (slice_last n l) = Nat.min (length l) n.
Proof. unfold slice_last. rewrite length_drop. lia. Qed.

Lemma slice_last_snoc {A} (n : nat) (l : list A) (x : A) :
  slice_last (S n) (slice_last (S n) l ++ [x]) = slice_last (S n) (l ++ [x]).
Proof.
  unfold slice_last. rewrite !length_app, length_drop. simpl length.
  destruct (decide (length l <= S n)) as [Hle|Hgt].
  - replace (length l - S n) with 0 by lia. rewrite drop_0.
    f_equal. lia.
  - rewrite drop_app_le by (rewrite length_drop; lia).
    rewrite drop_drop.
    rewrite (drop_app_le l) by lia.
    do 2 f_equal. lia.
Qed.

Lemma appendTopic_length c prev : length (appendTopic c prev) <= 3.
Proof. unfold appendTopic. rewrite slice_last_length. lia. Qed.

Lemma appendTopic_slice_last c (l : list string) :
  appendTopic c (slice_last 3 l) = slice_last 3 (l ++ [c]).
Proof. apply slice_last_snoc. Qed.

Lemma step_topics_bounded s e s' :
  step s e = Some s' ->
  length (previousTopics (app s)) <= 3 ->
  length (previousTopics (app s')) <= 3.
Proof.
  intros H Hle. destruct e as [f q c|q| |i o|i au im]; simpl in H.
  - by injection H as <-.
  - by injection H as <-.
  - injection H as <-. simpl. lia.
  - destruct (pending s !! i) as [[]|]; try discriminate.
    destruct o; injection H as <-; simpl; [apply appendTopic_length|done].
  - destruct (pending s !! i) as [[]|]; try discriminate.
    destruct au, im; by injection H as <-.
Qed.

Lemma run_topics_bounded es : forall s s',
  run s es = Some s' ->
  length (previousTopics (app s)) <= 3 ->
  length (previousTopics (app s')) <= 3.
Proof.
  induction es as [|e es IH]; intros s s' H Hle; simpl in H.
  - by injection H as <-.
  - destruct (step s e) as [s1|] eqn:Hstep; [|discriminate].
    eapply IH; [exact H|]. eapply step_topics_bounded; eauto.
Qed.

Lemma run_app es1 : forall s es2,
  run s (es1 ++ es2) = run s es1 ≫= λ s', run s' es2.
Proof.
  induction es1 as [|e es1 IH]; intros s es2; simpl; [done|].
  destruct (step s e); simpl; [apply IH|done].
Qed.

Lemma settle_events_at_rest a cs f q c T file context l t :
  previousTopics a = slice_last 3 l ->
  currentFile a = file -> currentContext a = context ->
  exists s',
    run {| app := a; pending := [AwaitStory f q c T]; console := cs |}
        (settle_events t) = Some s' /\
    at_rest file context (l ++ [concept t]) s' /\
    appState (app s') = PLAYING /\
    storyData (app s') = Some (turn_story t).
Proof.
  intros HT Hf Hc. destruct t as [tq story au im].
  unfold settle_events, at_rest, concept. cbn [turn_story turn_audio turn_image].
  destruct au, im; eexists; (split; [reflexivity|]);
    cbn -[appendTopic slice_last];
    rewrite HT, appendTopic_slice_last; auto.
Qed.

Lemma follow_up_at_rest file context l s t :
  at_rest file context l s ->
  exists s',
    run s (follow_up_events t) = Some s' /\
    at_rest file context (l ++ [concept t]) s' /\
    appState (app s') = PLAYING /\
    storyData (app s') = Some (turn_story t).
Proof.
  intros (Hp & HT & Hf & Hc). destruct s as [a ps cs]. simpl in *. subst ps.
  pose (a1 := fst (handleSuggestedQuestionClick (turn_question t) a)).
  destruct (settle_events_at_rest a1 cs (currentFile a) (turn_question t)
              (currentContext a) (previousTopics a) file context l t)
    as (s' & Hrun & Hrest); [done..|].
  exists s'. split; [exact Hrun|exact Hrest].
Qed.

Lemma first_turn_at_rest file context t :
  exists s',
    run start (first_turn_events file context t) = Some s' /\
    at_rest file context [concept t] s' /\
    appState (app s') = PLAYING /\
    storyData (app s') = Some (turn_story t).
Proof.
  pose (a1 := fst (handleStartAdventure file (turn_question t) context initial)).
  destruct (settle_events_at_rest a1 [] file (turn_question t) context []
              file context [] t)
    as (s' & Hrun & Hrest); [done..|].
  exists s'. split; [exact Hrun|exact Hrest].
Qed.

Lemma follow_ups_at_rest file context ts : forall l s,
  at_rest file context l s ->
  exists s',
    run s (concat (List.map follow_up_events ts)) = Some s' /\
    at_rest file context (l ++ List.map concept ts) s'.
Proof.
  induction ts as [|t ts IH]; intros l s Hs.
  - exists s. by rewrite app_nil_r.
  - destruct (follow_up_at_rest file context l s t Hs) as (s1 & Hrun1 & Hs1 & _).
    destruct (IH _ _ Hs1) as (s' & Hrun & Hs').
    exists s'. split.
    + cbn [List.map concat]. rewrite run_app, Hrun1. exact Hrun.
    + cbn [List.map]. by rewrite <- app_assoc in Hs'.
Qed.

(** After the turns of a session the history is the last three concepts. *)
Lemma session_at_rest file context t ts :
  exists s,
    run start (session_events file context (t :: ts)) = Some s /\
    at_rest file context (List.map concept (t :: ts)) s.
Proof.
  destruct (first_turn_at_rest file context t) as (s1 & Hrun1 & Hs1 & _).
  destruct (follow_ups_at_rest file context ts _ _ Hs1) as (s & Hrun & Hs).
  exists s. split; [|exact Hs].
  unfold session_events. rewrite run_app, Hrun1. exact Hrun.
Qed.

(** C3.  In every reachable session state the topic history has at most
    three entries; and after any [N] successful turns with no reset it is
    the last [min N 3] concepts appended, in the order they were appended
    (the oldest is the one dropped), which is also the snapshot the next
    request carries. *)
Theorem topic_history_cap :
  (forall es,
     match run start es with
     | Some s => length (previousTopics (app s)) <= 3
     | None => True
     end) /\
  (forall file context turns,
     let concepts := List.map concept turns in
     let N := length turns in
     exists s,
       run start (session_events file context turns) = Some s /\
       pending s = [] /\
       previousTopics (app s) = drop (N - 3) concepts /\
       length (previousTopics (app s)) = Nat.min N 3 /\
       (forall q, exists a',
          handleSuggestedQuestionClick q (app s)
          = (a', AwaitStory (currentFile (app s)) q (currentContext (app s))
                            (drop (N - 3) concepts))) /\
       (forall f q c, exists a',
          handleStartAdventure f q c (app s)
          = (a', AwaitStory f q c (drop (N - 3) concepts)))).
Proof.
  split.
  - intros es. destruct (run start es) as [s|] eqn:Hrun; [|done].
    eapply run_topics_bounded; [exact Hrun|]. simpl. lia.
  - intros file context turns concepts N.
    assert (H : exists s, run start (session_events file context turns) = Some s
                          /\ pending s = []
                          /\ previousTopics (app s) = slice_last 3 concepts).
    { destruct turns as [|t ts].
      - exists start. done.
      - destruct (session_at_rest file context t ts) as (s & Hrun & Hp & HT & _).
        exists s. done. }
    destruct H as (s & Hrun & Hp & HT).
    assert (HT' : previousTopics (app s) = drop (N - 3) concepts).
    { rewrite HT. unfold slice_last, concepts, N. by rewrite length_map. }
    exists s. split; [exact Hrun|]. split; [exact Hp|]. split; [exact HT'|].
    split; [|split].
    + rewrite HT, slice_last_length. unfold concepts, N. by rewrite length_map.
    + intros q. eexists. unfold handleSuggestedQuestionClick,
        processStoryGeneration_begin. cbn. by rewrite HT'.
    + intros f q c. eexists. unfold handleStartAdventure,
        processStoryGeneration_begin. cbn. by rewrite HT'.
Qed.

(** *** The media join *)

(** The last stretch of a turn, from any state: each result is applied on
    its own, and the state becomes [PLAYING]. *)
Lemma media_results_applied au im a :
  let a' := fst (processStoryGeneration_media au im a) in
  appState a' = PLAYING /\
  audioUrl a' = match au with Fulfilled v => Some v | Rejected _ => audioUrl a end /\
  imageUrl a' = match im with Fulfilled v => Some v | Rejected _ => imageUrl a end /\
  storyData a' = storyData a /\ errorMsg a' = errorMsg a /\
  previousTopics a' = previousTopics a /\
  currentFile a' = currentFile a /\ currentContext a' = currentContext a.
Proof. by destruct au, im. Qed.




(** The specification's two scenarios, run: speech fails and the
    illustration arrives; then both fail. *)
Example partial_media_failure :
  processStoryGeneration Sample.platform Sample.speech_fails
    (Some Sample.drawing) "Why do things fall?" Sample.child initial
  = ({| appState := PLAYING; storyData := Some Sample.story;
        audioUrl := None;
        imageUrl := Some "data:image/png;base64,iVBORw0KGgo=";
        errorMsg := None; previousTopics := ["gravity"];
        currentFile := None; currentContext := EMPTY_CONTEXT |},
     ["Audio generation failed: 503"]).
Proof. vm_compute. reflexivity. Qed.

Example total_media_failure :
  run start [StartAdventure None "Why do things fall?" Sample.child;
             StorySettled 0 (Fulfilled Sample.story);
             MediaSettled 0 (Rejected "503") (Rejected "quota")]
  = Some {| app := {| appState := PLAYING; storyData := Some Sample.story;
                      audioUrl := None; imageUrl := None; errorMsg := None;
                      previousTopics := ["gravity"]; currentFile := None;
                      currentContext := Sample.child |};
            pending := [];
            console := ["Audio generation failed: 503";
                        "Image generation failed: quota"] |}.
Proof. vm_compute. reflexivity. Qed.

(** *** Failure of the text call *)

Lemma generateStory_fails P model file question context topics parts :
  Story.buildParts file question context topics = Fulfilled parts ->
  Story.text_call_fails P (model parts) ->
  exists e,
    Story.generateStory P model file question context topics = Rejected e.
Proof.
  intros Hparts Hfail. unfold Story.generateStory. rewrite Hparts.
  destruct (model parts) as [[[|c t]|]|e]; simpl in *; eauto.
  change (JSON_parse P (Story.trim (Story.replace_fences (String c t))) = None)
    in Hfail.
  rewrite Hfail. eauto.
Qed.

(** C4, as amended.  When the text call fails (it throws, returns no or
    empty text, or text that does not parse after fence stripping), the
    turn ends in [ERROR] with the user-facing message set, the audio and
    image of the previous turn cleared, no story stored for this turn (the
    stored story is the one from before the call: none on a first turn, the
    previous turn's on a follow-up), and the topic history unchanged. *)
Theorem text_failure_ends_in_error P C file question context a parts :
  Story.buildParts file question context (previousTopics a) = Fulfilled parts ->
  Story.text_call_fails P (story_model C parts) ->
  let a' := fst (processStoryGeneration P C file question context a) in
  appState a' = ERROR /\
  errorMsg a' = Some OOPS /\
  storyData a' = storyData a /\
  audioUrl a' = None /\ imageUrl a' = None /\
  previousTopics a' = previousTopics a /\
  length (previousTopics a') = length (previousTopics a) /\
  exists e,
    snd (processStoryGeneration P C file question context a)
    = ["Story generation failed: " +:+ e].
Proof.
  intros Hparts Hfail a'.
  destruct (generateStory_fails P (story_model C) _ _ _ _ _ Hparts Hfail)
    as (e & He).
  subst a'. unfold processStoryGeneration.
  cbn [processStoryGeneration_begin].
  change (previousTopics (setImageUrl _ _)) with (previousTopics a).
  rewrite He. cbn. repeat split; eauto.
Qed.

Lemma text_failure_ends_in_error_witness :
  Story.buildParts None "Why do things fall?" Sample.child
                   (previousTopics initial)
  = Fulfilled
      [Story.text (Story.prompt "Why do things fall?"
                     (Story.contextObject Sample.child [])
                     Story.NO_DRAWING_NOTE)] /\
  Story.text_call_fails Sample.platform
    (story_model Sample.text_fails
       [Story.text (Story.prompt "Why do things fall?"
                      (Story.contextObject Sample.child [])
                      Story.NO_DRAWING_NOTE)]) /\
  let a' := fst (processStoryGeneration Sample.platform Sample.text_fails
                   None "Why do things fall?" Sample.child initial) in
  appState a' = ERROR /\
  errorMsg a' = Some OOPS /\
  storyData a' = storyData initial /\
  audioUrl a' = None /\ imageUrl a' = None /\
  previousTopics a' = previousTopics initial /\
  length (previousTopics a') = length (previousTopics initial) /\
  exists e,
    snd (processStoryGeneration Sample.platform Sample.text_fails
           None "Why do things fall?" Sample.child initial)
    = ["Story generation failed: " +:+ e].
Proof.
  assert (H1 : Story.buildParts None "Why do things fall?" Sample.child
                 (previousTopics initial)
               = Fulfilled
                   [Story.text (Story.prompt "Why do things fall?"
                                  (Story.contextObject Sample.child [])
                                  Story.NO_DRAWING_NOTE)])
    by (vm_compute; reflexivity).
  assert (H2 : Story.text_call_fails Sample.platform
                 (story_model Sample.text_fails
                    [Story.text (Story.prompt "Why do things fall?"
                                   (Story.contextObject Sample.child [])
                                   Story.NO_DRAWING_NOTE)]))
    by (vm_compute; reflexivity).
  split; [exact H1|]. split; [exact H2|].
  exact (text_failure_ends_in_error Sample.platform Sample.text_fails None
           "Why do things fall?" Sample.child initial _ H1 H2).
Defined.

(** C4 as stated fails on a follow-up: the story of the previous turn is
    still stored when the follow-up's text call has failed. *)
Lemma failed_follow_up_keeps_story :
  exists s,
    view_run start
      [StartAdventure (Some Sample.drawing) "Why do things fall?" Sample.child;
       StorySettled 0 (Fulfilled Sample.story);
       MediaSettled 0 (Rejected "503") (Fulfilled "data:image/png;base64,AA==");
       SuggestedQuestionClick "Why do birds not fall?";
       StorySettled 0 (Rejected "network error")]
    = Some s /\
    appState (app s) = ERROR /\
    storyData (app s) = Some Sample.story /\
    storyData (app s) <> None.
Proof.
  eexists. split; [vm_compute; reflexivity|]. repeat split. discriminate.
Qed.

(** *** Results that arrive after a reset *)

Lemma handleReset_initial a : handleReset a = initial.
Proof. reflexivity. Qed.






(** *** Follow-up questions *)

Lemma settle_events_showing a cs f q c T t :
  exists s',
    run {| app := a; pending := [AwaitStory f q c T]; console := cs |}
        (settle_events t) = Some s' /\
    showing (currentFile a) (currentContext a) t s'.
Proof.
  destruct t as [tq story au im]. unfold settle_events, showing.
  cbn [turn_story turn_audio turn_image].
  destruct au, im; eexists; (split; [reflexivity|]); cbn; auto.
Qed.

Lemma first_turn_showing s0 file context t :
  pending s0 = [] ->
  exists s,
    run s0 (first_turn_events file context t) = Some s /\
    showing file context t s.
Proof.
  destruct s0 as [a ps cs]. cbn [pending]. intros ->.
  pose (a1 := fst (handleStartAdventure file (turn_question t) context a)).
  destruct (settle_events_showing a1 cs file (turn_question t) context
              (previousTopics a) t) as (s & Hrun & Hs).
  exists s. split; [exact Hrun|exact Hs].
Qed.

Lemma follow_up_showing file context t0 s t :
  showing file context t0 s ->
  exists s',
    run s (follow_up_events t) = Some s' /\ showing file context t s'.
Proof.
  intros (Hp & _ & _ & Hf & Hc). destruct s as [a ps cs]. simpl in *. subst ps.
  pose (a1 := fst (handleSuggestedQuestionClick (turn_question t) a)).
  destruct (settle_events_showing a1 cs (currentFile a) (turn_question t)
              (currentContext a) (previousTopics a) t) as (s' & Hrun & Hs').
  exists s'. split; [exact Hrun|]. subst a1. simpl in Hs'. by subst.
Qed.

Lemma last_cons_default {A} (l : list A) : forall x a b,
  List.last (x :: l) a = List.last (x :: l) b.
Proof.
  induction l as [|y l IH]; intros x a b; [reflexivity|].
  change (List.last (y :: l) a = List.last (y :: l) b). apply IH.
Qed.

Lemma follow_ups_showing file context ts : forall t0 s,
  showing file context t0 s ->
  exists s',
    run s (concat (List.map follow_up_events ts)) = Some s' /\
    showing file context (List.last ts t0) s'.
Proof.
  induction ts as [|t ts IH]; intros t0 s Hs.
  - by exists s.
  - destruct (follow_up_showing file context t0 s t Hs) as (s1 & Hrun1 & Hs1).
    destruct (IH _ _ Hs1) as (s' & Hrun & Hs').
    exists s'. split.
    + cbn [List.map concat]. rewrite run_app, Hrun1. exact Hrun.
    + destruct ts as [|t' ts]; [exact Hs'|].
      change (List.last (t :: t' :: ts) t0) with (List.last (t' :: ts) t0).
      by rewrite (last_cons_default ts t' t0 t).
Qed.

(** C8.  After a turn submitted with image [img1] and context [ctx1] has
    succeeded (and after any further successful follow-ups), the story is
    shown, any of its suggested questions is offered, and clicking a
    follow-up question [q2] calls [generateStory] with [img1], [q2] and
    [ctx1]: the caller passes only the question. *)
Theorem follow_up_reuses_image_and_context s0 img1 ctx1 t ts q2 :
  pending s0 = [] ->
  exists s s',
    run s0 (session_events img1 ctx1 (t :: ts)) = Some s /\
    showing img1 ctx1 (List.last ts t) s /\
    (q2 ∈ suggested_questions (storyboard (turn_story (List.last ts t))) ->
     offered (app s) (SuggestedQuestionClick q2) = true) /\
    step s (SuggestedQuestionClick q2) = Some s' /\
    pending s' = [AwaitStory img1 q2 ctx1 (previousTopics (app s))] /\
    appState (app s') = ANALYZING /\
    currentFile (app s') = img1 /\ currentContext (app s') = ctx1 /\
    (forall T1 parts1,
       Story.buildParts img1 (turn_question t) ctx1 T1 = Fulfilled parts1 ->
       exists parts2,
         Story.buildParts img1 q2 ctx1 (previousTopics (app s))
         = Fulfilled parts2 /\
         removelast parts2 = removelast parts1).
Proof.
  intros Hp.
  destruct (first_turn_showing s0 img1 ctx1 t Hp) as (s1 & Hrun1 & Hs1).
  destruct (follow_ups_showing img1 ctx1 ts t s1 Hs1) as (s & Hrun & Hs).
  destruct (Hs) as (Hps & Hplay & Hstory & Hf & Hc).
  exists s. eexists. split.
  { unfold session_events. rewrite run_app, Hrun1. exact Hrun. }
  split; [exact Hs|]. split.
  { intros Hq. unfold offered. rewrite Hplay, Hstory.
    by apply bool_decide_eq_true. }
  split; [reflexivity|].
  cbn. rewrite Hps, Hf, Hc. repeat split.
  intros T1 parts1 H1. by apply buildParts_same_image with (turn_question t) ctx1 T1.
Qed.

Lemma follow_up_reuses_image_and_context_witness :
  pending start = [] /\
  exists s s',
    run start
        (session_events (Some Sample.drawing) Sample.child
           [{| turn_question := "Why do things fall?";
               turn_story := Sample.story;
               turn_audio := Rejected "503";
               turn_image := Fulfilled "data:image/png;base64,AA==" |}])
    = Some s /\
    showing (Some Sample.drawing) Sample.child
            {| turn_question := "Why do things fall?";
               turn_story := Sample.story;
               turn_audio := Rejected "503";
               turn_image := Fulfilled "data:image/png;base64,AA==" |} s /\
    ("Why do birds not fall?" ∈ suggested_questions (storyboard Sample.story) ->
     offered (app s) (SuggestedQuestionClick "Why do birds not fall?") = true) /\
    step s (SuggestedQuestionClick "Why do birds not fall?") = Some s' /\
    pending s' = [AwaitStory (Some Sample.drawing) "Why do birds not fall?"
                             Sample.child (previousTopics (app s))] /\
    appState (app s') = ANALYZING /\
    currentFile (app s') = Some Sample.drawing /\
    currentContext (app s') = Sample.child /\
    (forall T1 parts1,
       Story.buildParts (Some Sample.drawing) "Why do things fall?"
                        Sample.child T1 = Fulfilled parts1 ->
       exists parts2,
         Story.buildParts (Some Sample.drawing) "Why do birds not fall?"
                          Sample.child (previousTopics (app s))
         = Fulfilled parts2 /\
         removelast parts2 = removelast parts1).
Proof.
  split; [reflexivity|].
  exact (follow_up_reuses_image_and_context start (Some Sample.drawing)
           Sample.child
           {| turn_question := "Why do things fall?";
              turn_story := Sample.story;
              turn_audio := Rejected "503";
              turn_image := Fulfilled "data:image/png;base64,AA==" |}
           [] "Why do birds not fall?" eq_refl).
Defined.

(** *** The speech payload *)


(** A payload that is not base64 is the only media failure the decoding
    and encoding steps can raise. *)
Lemma generateSpeech_invalid_base64 P parts base64 :
  Media.first_inline_data parts = Some base64 ->
  base64 <> EmptyString ->
  Media.atob base64 = None ->
  Media.generateSpeech P (Fulfilled parts) = Rejected "InvalidCharacterError".
Proof.
  intros Hdata Hne Hbin. unfold Media.generateSpeech.
  rewrite Hdata. destruct base64 as [|c b]; [done|]. by rewrite Hbin.
Qed.




End AppFacts.

(** ** Sessions driven through the view *)

Section ViewFacts.
Import App Screen.

Lemma last_slice_last_snoc {A} (n : nat) (l : list A) (x : A) :
  last (slice_last (S n) (l ++ [x])) = Some x.
Proof.
  unfold slice_last. rewrite length_app. simpl length.
  rewrite drop_app_le by lia. apply last_snoc.
Qed.

Lemma last_appendTopic c prev : last (appendTopic c prev) = Some c.
Proof. apply last_slice_last_snoc. Qed.

Lemma consistent_start : consistent start.
Proof. repeat split. Qed.

Lemma view_step_consistent s e s' :
  view_step s e = Some s' -> consistent s -> consistent s'.
Proof.
  unfold view_step. destruct s as [a ps cs]. cbn [app].
  destruct (offered a e) eqn:Hoff; [|discriminate].
  unfold consistent. cbn [app pending]. intros Hstep [Hlink Hinv].
  destruct e as [f q c|q| |i o|i au im]; simpl in Hoff, Hstep.
  - (* StartAdventure *)
    destruct (appState a) eqn:Hst; try discriminate.
    destruct Hinv as [-> ->]. injection Hstep as <-. cbn.
    repeat split; eauto.
  - (* SuggestedQuestionClick *)
    destruct (appState a) eqn:Hst; try discriminate.
    destruct (storyData a) as [story|] eqn:Hstory; try discriminate.
    destruct Hinv as (-> & _ & _). injection Hstep as <-. cbn.
    unfold newest_topic_is_story in *. cbn. rewrite Hstory in *.
    repeat split; eauto.
  - (* Reset *)
    injection Hstep as <-. cbn.
    destruct (appState a) eqn:Hst; try discriminate;
      destruct Hinv as (-> & _); repeat split.
  - (* StorySettled *)
    destruct (appState a) eqn:Hst;
      try (destruct Hinv as [-> _]; by destruct i);
      try (destruct Hinv as (-> & _); by destruct i).
    + destruct Hinv as ((q & ->) & He & Ha & Hi).
      destruct i as [|i]; [|by destruct i]. simpl in Hstep.
      destruct o as [story|err]; injection Hstep as <-; cbn -[appendTopic].
      * unfold newest_topic_is_story. cbn -[appendTopic].
        rewrite last_appendTopic. repeat split; eauto.
      * unfold newest_topic_is_story in *. cbn. repeat split; eauto.
    + destruct Hinv as ((story & _ & ->) & _).
      destruct i as [|i]; [done|by destruct i].
  - (* MediaSettled *)
    destruct (appState a) eqn:Hst;
      try (destruct Hinv as [-> _]; by destruct i);
      try (destruct Hinv as (-> & _); by destruct i).
    + destruct Hinv as ((q & ->) & _).
      destruct i as [|i]; [done|by destruct i].
    + destruct Hinv as ((story & Hstory & ->) & He & Ha & Hi).
      destruct i as [|i]; [|by destruct i]. simpl in Hstep.
      destruct au, im; injection Hstep as <-; cbn;
        unfold newest_topic_is_story in *; cbn; rewrite Hstory in *;
        repeat split; eauto; congruence.
Qed.

Lemma view_run_consistent es : forall s s',
  view_run s es = Some s' -> consistent s -> consistent s'.
Proof.
  induction es as [|e es IH]; intros s s' H Hinv; simpl in H.
  - by injection H as <-.
  - destruct (view_step s e) as [s1|] eqn:Hstep; [|discriminate].
    eapply IH; [exact H|]. eapply view_step_consistent; eauto.
Qed.

(** A session driven through the view is a session. *)
Lemma view_run_run es : forall s s', view_run s es = Some s' -> run s es = Some s'.
Proof.
  induction es as [|e es IH]; intros s s' H; simpl in *; [done|].
  unfold view_step in H. destruct (offered (app s) e); [|discriminate].
  destruct (step s e) as [s1|]; [|discriminate]. simpl in *. by apply IH.
Qed.

(** Every session the view can lead to is consistent. *)
Lemma reachable_consistent es s :
  view_run start es = Some s -> consistent s.
Proof. intros H. eapply view_run_consistent; [exact H|apply consistent_start]. Qed.


(** Among the states of [App] no page is empty and no session stuck: in
    [PLAYING] a story is stored, so [StoryView] is rendered, and in every
    state some event can happen next. *)
Lemma view_run_never_blank es :
  match view_run start es with
  | Some s =>
      render (app s) <> Nothing /\
      (appState (app s) = PLAYING -> exists story au im,
         render (app s) = StoryView story au im) /\
      exists e s', view_step s e = Some s'
  | None => True
  end.
Proof.
  destruct (view_run start es) as [s|] eqn:Hrun; [|done].
  apply reachable_consistent in Hrun as [_ Hinv].
  unfold render, view_step, offered.
  destruct s as [a ps cs]. cbn [app pending] in *.
  destruct (appState a) eqn:Hst.
  - split; [done|]. split; [done|].
    exists (StartAdventure None EmptyString EMPTY_CONTEXT). eauto.
  - destruct Hinv as ((q & ->) & _). split; [done|]. split; [done|].
    exists (StorySettled 0 (Rejected EmptyString)). eauto.
  - destruct Hinv as ((story & _ & ->) & _). split; [done|]. split; [done|].
    exists (MediaSettled 0 (Rejected EmptyString) (Rejected EmptyString)). eauto.
  - destruct Hinv as (_ & Hstory & _).
    destruct (storyData a) as [story|] eqn:Hs; [|done].
    split; [done|]. split; [eauto|].
    exists Reset. eauto.
  - split; [done|]. split; [done|]. exists Reset. eauto.
Qed.

(** X3.  In a session driven through the view the error message is set
    exactly in [ERROR], and it is always the friendly one: the error card
    never falls back to its built-in text. *)
Theorem view_error_message es :
  match view_run start es with
  | Some s =>
      (appState (app s) = ERROR <-> errorMsg (app s) = Some OOPS) /\
      (appState (app s) <> ERROR <-> errorMsg (app s) = None) /\
      (forall message, render (app s) = ErrorCard message -> message = OOPS)
  | None => True
  end.
Proof.
  destruct (view_run start es) as [s|] eqn:Hrun; [|done].
  apply reachable_consistent in Hrun as [_ Hinv].
  unfold render. destruct (appState (app s)) eqn:Hst.
  - destruct Hinv as [_ ->]. simpl. by repeat split.
  - destruct Hinv as (_ & -> & _). by repeat split.
  - destruct Hinv as (_ & -> & _). by repeat split.
  - destruct Hinv as (_ & _ & ->).
    repeat split; try done. by destruct (storyData (app s)).
  - destruct Hinv as (_ & -> & _). repeat split; try done.
    intros message [= <-]. reflexivity.
Qed.

(** X4.  In a session driven through the view an audio or image URL is
    stored only in [PLAYING]: every other state, the loading states of the
    next turn included, holds none of the previous turn's media. *)
Theorem view_media_only_when_playing es :
  match view_run start es with
  | Some s =>
      appState (app s) <> PLAYING ->
      audioUrl (app s) = None /\ imageUrl (app s) = None
  | None => True
  end.
Proof.
  destruct (view_run start es) as [s|] eqn:Hrun; [|done].
  apply reachable_consistent in Hrun as [_ Hinv].
  destruct (appState (app s)) eqn:Hst; intros Hne; try done.
  - destruct Hinv as [_ ->]. done.
  - by destruct Hinv as (_ & _ & ? & ?).
  - by destruct Hinv as (_ & _ & ? & ?).
  - by destruct Hinv as (_ & _ & ? & ?).
Qed.

(** X5.  In a session driven through the view the stored story is always
    the one whose concept was appended to the topic history last, and the
    history is empty exactly when no story is stored. *)
Theorem view_story_is_newest_topic es :
  match view_run start es with
  | Some s =>
      (forall story,
         storyData (app s) = Some story ->
         last (previousTopics (app s))
         = Some (educational_concept (meta story))) /\
      (storyData (app s) = None <-> previousTopics (app s) = [])
  | None => True
  end.
Proof.
  destruct (view_run start es) as [s|] eqn:Hrun; [|done].
  apply reachable_consistent in Hrun as [Hlink _].
  unfold newest_topic_is_story in Hlink.
  destruct (storyData (app s)) as [story|].
  - split; [by intros ? [= <-]|]. split; [done|].
    intros Hnil. by rewrite Hnil in Hlink.
  - by repeat split.
Qed.


(** X7.  In a session driven through the view the story call in flight
    always carries the retained file and child context and the current
    topic history, of at most three topics. *)
Theorem view_request_in_flight es :
  match view_run start es with
  | Some s =>
      forall f q c T,
        pending s !! 0 = Some (AwaitStory f q c T) ->
        f = currentFile (app s) /\ c = currentContext (app s) /\
        T = previousTopics (app s) /\ length T <= 3
  | None => True
  end.
Proof.
  destruct (view_run start es) as [s|] eqn:Hrun; [|done].
  intros f q c T Hp.
  assert (Hlen : length (previousTopics (app s)) <= 3).
  { eapply run_topics_bounded; [by apply view_run_run|]. simpl. lia. }
  apply reachable_consistent in Hrun as [_ Hinv].
  destruct (appState (app s)) eqn:Hst.
  - destruct Hinv as [Hnil _]. by rewrite Hnil in Hp.
  - destruct Hinv as ((q' & Hq) & _). rewrite Hq in Hp.
    injection Hp as <- <- <- <-. auto.
  - destruct Hinv as ((story & _ & Hq) & _). by rewrite Hq in Hp.
  - destruct Hinv as (Hnil & _). by rewrite Hnil in Hp.
  - destruct Hinv as (Hnil & _). by rewrite Hnil in Hp.
Qed.

End ViewFacts.

(** ** Answers that are no stories *)

Section UntypedFacts.
Import App Screen Untyped.

Lemma as_object_some v members :
  as_object v = Some members -> v = Some (JObject members).
Proof. destruct v as [[]|]; try discriminate. by intros [= ->]. Qed.

Lemma as_string_some v s : as_string v = Some s -> v = Some (JString s).
Proof. destruct v as [[]|]; try discriminate. by intros [= ->]. Qed.

(** On a value of the declared shape the reads bring the fields of the
    story. *)
Lemma shaped_reads v story :
  as_StoryResponse v = Some story ->
  read_concept (Some v)
  = Some (Some (JString (educational_concept (meta story)))) /\
  read_audio_text (Some v)
  = Some (Some (JString (audio_text (storyboard story)))) /\
  read_image_prompt (Some v)
  = Some (Some (JString (image_prompt (visuals story)))).
Proof.
  unfold as_StoryResponse. intros H.
  repeat match type of H with
         | (mbind _ ?x) = Some _ =>
             let E := fresh "E" in
             destruct x eqn:E; [cbn [mbind option_bind] in H|discriminate]
         | (?x ≫= _) = Some _ =>
             let E := fresh "E" in
             destruct x eqn:E; [cbn [mbind option_bind] in H|discriminate]
         end.
  injection H as <-. cbn [meta storyboard visuals educational_concept
                           audio_text image_prompt].
  repeat match goal with
         | H : as_object _ = Some _ |- _ => apply as_object_some in H
         | H : as_string _ = Some _ |- _ => apply as_string_some in H
         end.
  match goal with H : Some v = Some _ |- _ => injection H as -> end.
  unfold read_concept, read_audio_text, read_image_prompt, get.
  cbn [key_name mbind option_bind].
  repeat match goal with
         | H : own _ _ = Some _ |- _ =>
             rewrite H; cbn [mbind option_bind]
         end.
  done.
Qed.

(** The typed [generateStory] is the untyped one on the answers that are
    stories. *)
Lemma generateStory_typed parse createObjectURL model file question
    context topics :
  let P := {| JSON_parse := fun s => v ← parse s; as_StoryResponse v;
              URL_createObjectURL := createObjectURL |} in
  forall v story,
    generateStory parse model file question context topics = Fulfilled v ->
    as_StoryResponse v = Some story ->
    Story.generateStory P model file question context topics = Fulfilled story.
Proof.
  intros P v story. unfold generateStory, Story.generateStory,
    Story.parseResponse.
  destruct (Story.buildParts file question context topics); [|discriminate].
  destruct (model value) as [[[|c t]|]|]; try discriminate.
  cbn [JSON_parse P].
  destruct (parse _) as [v'|]; [|discriminate].
  intros [= ->] Hv. cbn [mbind option_bind]. by rewrite Hv.
Qed.

Lemma media_log_of audioResult imageResult a :
  snd (processStoryGeneration_media audioResult imageResult a)
  = Console.media_log "Audio generation failed: " audioResult
    ++ Console.media_log "Image generation failed: " imageResult /\
  errorMsg (fst (processStoryGeneration_media audioResult imageResult a))
  = errorMsg a /\
  appState (fst (processStoryGeneration_media audioResult imageResult a))
  = PLAYING.
Proof. by destruct audioResult, imageResult. Qed.

(** X16.  The media stage logs and never shows.  For a story of the
    declared shape the two services are called with its [audio_text] and
    its [image_prompt], the console receives one line per rejected call,
    with its reason, audio before image, and nothing for a fulfilled one,
    and the stage ends in [PLAYING].  For a value whose [storyboard] or
    [visuals] cannot be read the inner [catch] writes its one line
    instead, although no media call was rejected, and no URL is set.  In
    neither case is the error message touched. *)
Theorem media_failures_are_logged speech illustration v a :
  let turn := media_stage speech illustration (Some v) a in
  (forall story,
     as_StoryResponse v = Some story ->
     let audioResult :=
       speech (Some (JString (audio_text (storyboard story)))) in
     let imageResult :=
       illustration (Some (JString (image_prompt (visuals story)))) in
     turn = processStoryGeneration_media audioResult imageResult a /\
     snd turn
     = Console.media_log "Audio generation failed: " audioResult
       ++ Console.media_log "Image generation failed: " imageResult /\
     appState (fst turn) = PLAYING) /\
  (read_audio_text (Some v) = None \/ read_image_prompt (Some v) = None ->
     snd turn = [MEDIA_ERROR] /\
     audioUrl (fst turn) = audioUrl a /\
     imageUrl (fst turn) = imageUrl a) /\
  errorMsg (fst turn) = errorMsg a.
Proof.
  intros turn. subst turn. unfold media_stage. split; [|split].
  - intros story Hv. cbv zeta.
    destruct (shaped_reads v story Hv) as (_ & -> & ->).
    split; [done|]. split; apply media_log_of.
  - intros Hread.
    destruct (read_audio_text (Some v)) as [t|]; [|done].
    destruct Hread as [|Hread]; [done|]. by rewrite Hread.
  - destruct (read_audio_text (Some v)) as [t|]; [|done].
    destruct (read_image_prompt (Some v)) as [p|]; [|done].
    apply media_log_of.
Qed.

(** The empty object, and a story without its [visuals]: the speech
    service fulfils, and yet the only line is that of the [catch]. *)
Example media_stage_without_visuals :
  media_stage (fun _ => Fulfilled "blob:audio") (fun _ => Rejected "503")
    (Some empty_object) initial
  = (setAppState PLAYING initial, [MEDIA_ERROR]) /\
  media_stage (fun _ => Fulfilled "blob:audio") (fun _ => Rejected "503")
    (Some (JObject [("storyboard", JObject [("audio_text", JString "Hi")])]))
    initial
  = (setAppState PLAYING initial, [MEDIA_ERROR]) /\
  media_stage (fun _ => Fulfilled "blob:audio") (fun _ => Rejected "503")
    (Some sample_story) initial
  = (setAppState PLAYING (setAudioUrl (Some "blob:audio") initial),
     ["Image generation failed: 503"]).
Proof. repeat split. Qed.

Lemma typed_well_shaped e :
  well_shaped e = true -> exists e', typed e = inr e'.
Proof.
  destruct e as [| | |i [v|r]|]; cbn [well_shaped typed]; eauto.
  destruct (as_StoryResponse v); [eauto|discriminate].
Qed.

Lemma typed_events es :
  forallb well_shaped es = true ->
  exists es', Forall2 (fun e e' => typed e = inr e') es es'.
Proof.
  induction es as [|e es IH]; intros H; [by exists []|].
  cbn [forallb] in H. apply andb_true_iff in H as [He Hes].
  destruct (typed_well_shaped e He) as (e' & Htyped).
  destruct (IH Hes) as (es' & Hall).
  exists (e' :: es'). by constructor.
Qed.

(** A session of well-shaped events is a session of [App]. *)
Lemma view_run_typed es es' :
  Forall2 (fun e e' => typed e = inr e') es es' ->
  forall s,
    view_run s es = match App.view_run s es' with
                    | Some s' => Ran s'
                    | None => Impossible
                    end.
Proof.
  induction 1 as [|e e' es es' Htyped _ IH]; intros s; [done|].
  cbn [view_run App.view_run]. rewrite Htyped.
  destruct (App.view_step s e') as [s'|]; [apply IH|done].
Qed.

(** X2.  A session driven through the view in which every story the text
    call fulfils with has the declared shape is a session of [App], event
    by event.  It never shows an empty page and is never stuck: in
    [PLAYING] a story is stored, so [StoryView] is rendered; and in every
    state some event can happen next.  (The code does not check the shape;
    a session in which it fails is followed no further than that
    answer.) *)
Theorem view_never_blank_never_stuck es :
  forallb well_shaped es = true ->
  (exists es',
     Forall2 (fun e e' => typed e = inr e') es es' /\
     Untyped.view_run start es = match App.view_run start es' with
                                 | Some s => Ran s
                                 | None => Impossible
                                 end) /\
  match Untyped.view_run start es with
  | Ran s =>
      render (app s) <> Nothing /\
      (appState (app s) = PLAYING -> exists story au im,
         render (app s) = StoryView story au im) /\
      exists e s', view_step s e = Some s'
  | Impossible => True
  | IllShaped _ => False
  end.
Proof.
  intros H. destruct (typed_events es H) as (es' & Hall).
  pose proof (view_run_typed es es' Hall start) as Hrun.
  split; [by exists es'|]. rewrite Hrun.
  pose proof (view_run_never_blank es') as Htyped.
  by destruct (App.view_run start es').
Qed.

Lemma view_never_blank_never_stuck_witness :
  forallb well_shaped
    [StartAdventure (Some Sample.drawing) "Why do things fall?" Sample.child;
     StorySettled 0 (Fulfilled sample_story);
     MediaSettled 0 (Rejected "503") (Fulfilled "data:image/png;base64,AA==")]
  = true /\
  (exists es',
     Forall2 (fun e e' => typed e = inr e')
       [StartAdventure (Some Sample.drawing) "Why do things fall?"
          Sample.child;
        StorySettled 0 (Fulfilled sample_story);
        MediaSettled 0 (Rejected "503")
          (Fulfilled "data:image/png;base64,AA==")] es' /\
     Untyped.view_run start
       [StartAdventure (Some Sample.drawing) "Why do things fall?"
          Sample.child;
        StorySettled 0 (Fulfilled sample_story);
        MediaSettled 0 (Rejected "503")
          (Fulfilled "data:image/png;base64,AA==")]
     = match App.view_run start es' with
       | Some s => Ran s
       | None => Impossible
       end) /\
  match Untyped.view_run start
          [StartAdventure (Some Sample.drawing) "Why do things fall?"
             Sample.child;
           StorySettled 0 (Fulfilled sample_story);
           MediaSettled 0 (Rejected "503")
             (Fulfilled "data:image/png;base64,AA==")] with
  | Ran s =>
      render (app s) <> Nothing /\
      (appState (app s) = PLAYING -> exists story au im,
         render (app s) = StoryView story au im) /\
      exists e s', view_step s e = Some s'
  | Impossible => True
  | IllShaped _ => False
  end.
Proof.
  split; [reflexivity|].
  apply (view_never_blank_never_stuck
           [StartAdventure (Some Sample.drawing) "Why do things fall?"
              Sample.child;
            StorySettled 0 (Fulfilled sample_story);
            MediaSettled 0 (Rejected "503")
              (Fulfilled "data:image/png;base64,AA==")]).
  reflexivity.
Defined.

(** The sample session ends showing the sample story; and the answer
    [{}], which [generateStory] fulfils with like any other, is no story:
    the updater given to [setPreviousTopics] and the first argument of the
    media calls both throw on it, and the session is followed no
    further. *)
Example sessions_by_shape :
  Untyped.view_run start
    [StartAdventure (Some Sample.drawing) "Why do things fall?" Sample.child;
     StorySettled 0 (Fulfilled sample_story)]
  = Ran {| app := fst (fst (processStoryGeneration_story
                              (Fulfilled Sample.story)
                              (fst (handleStartAdventure
                                      (Some Sample.drawing)
                                      "Why do things fall?" Sample.child
                                      initial))));
           pending := [AwaitMedia "The ball fell. THUD!"
                                  "A brave crayon robot"];
           console := [] |} /\
  as_StoryResponse empty_object = None /\
  read_concept (Some empty_object) = None /\
  read_audio_text (Some empty_object) = None /\
  Untyped.view_run start
    [StartAdventure (Some Sample.drawing) "Why do things fall?" Sample.child;
     StorySettled 0 (Fulfilled empty_object)]
  = IllShaped empty_object.
Proof. repeat split. Qed.

End UntypedFacts.

(** ** More on the services *)

Section ServiceFacts.
Import Wav.

Lemma store_take_drop bs : forall view off,
  off + length bs <= length view ->
  store view off bs = take off view ++ bs ++ drop (off + length bs) view.
Proof.
  induction bs as [|b bs IH]; intros view off Hfit; simpl in *.
  - by rewrite Nat.add_0_r, take_drop.
  - rewrite IH by (rewrite length_insert; lia).
    rewrite drop_insert_lt by lia.
    rewrite insert_take_drop by lia.
    replace (S off) with (off + 1) at 1 by lia.
    rewrite take_app_add' by (rewrite length_take; lia).
    simpl. rewrite <- app_assoc. simpl. by rewrite Nat.add_succ_r.
Qed.

Lemma wide_writeString_from_fits units : forall view offset i,
  offset + i + length units <= length view ->
  Utf16.writeString_from view offset i units
  = Some (store view (offset + i) (List.map ToUint8 units)).
Proof.
  induction units as [|u units IH]; intros view offset i Hfit; [done|].
  cbn [Utf16.writeString_from length List.map store] in *.
  unfold setUint8. rewrite decide_True by lia. cbn [mbind option_bind store].
  rewrite IH by (rewrite length_insert; lia).
  by rewrite Nat.add_succ_r.
Qed.

Lemma wide_writeString_from_overflows units : forall view offset i,
  units <> [] ->
  length view < offset + i + length units ->
  Utf16.writeString_from view offset i units = None.
Proof.
  induction units as [|u units IH]; intros view offset i Hne Hover; [done|].
  cbn [Utf16.writeString_from length] in *. unfold setUint8.
  case_decide as Hfit; [|done]. cbn [mbind option_bind store].
  destruct units as [|u' units]; [cbn [length] in *; lia|].
  apply IH; [done|]. rewrite length_insert. cbn [length] in *. lia.
Qed.

Lemma writeString_from_wide s : forall view offset i,
  writeString_from view offset i s
  = Utf16.writeString_from view offset i (Str.codes s).
Proof.
  induction s as [|c s IH]; intros view offset i; [done|].
  change (Str.codes (String c s)) with (Str.charCodeAt c :: Str.codes s).
  cbn [writeString_from Utf16.writeString_from].
  destruct (setUint8 view (offset + i) (Str.charCodeAt c)); [|done].
  apply IH.
Qed.

(** X8.  [writeString] writes, at the offset, the low byte of every code
    unit of the string, and nothing else, keeping the length of the
    buffer; it throws exactly when the string is not empty and does not
    fit.  The low byte is the character code exactly for the code units
    below 256; on the strings of such code units this is [Wav.writeString]. *)
Theorem writeString_low_bytes view offset units :
  Utf16.writeString view offset units
  = (if decide (units = [] \/ offset + length units <= length view)
     then Some (take offset view ++ List.map ToUint8 units
                ++ drop (offset + length units) view)
     else None) /\
  (forall u, Utf16.is_code_unit u -> ToUint8 u = u <-> (u < 256)%Z) /\
  (forall s, writeString view offset s
             = Utf16.writeString view offset (Str.codes s)).
Proof.
  split; [|split].
  - unfold Utf16.writeString. case_decide as Hfit.
    + destruct (decide (offset + length units <= length view)) as [Hle|Hgt].
      * rewrite wide_writeString_from_fits by lia.
        rewrite Nat.add_0_r, store_take_drop by (rewrite length_map; lia).
        by rewrite length_map.
      * destruct Hfit as [->|]; [|lia]. cbn [length] in *.
        cbn [Utf16.writeString_from List.map].
        by rewrite take_ge, drop_ge, app_nil_r by lia.
    + apply wide_writeString_from_overflows; [tauto|lia].
  - intros u [Hlo Hhi]. unfold ToUint8. split.
    + intros H. rewrite <- H. apply Z.mod_pos_bound. lia.
    + intros H. apply Z.mod_small. lia.
  - intros s. apply writeString_from_wide.
Qed.

(** The code unit 256 + 82 is stored as the letter R. *)
Example writeString_wraps :
  Utf16.writeString [0; 0; 0]%Z 1 [338]%Z = Some [0; 82; 0]%Z.
Proof. reflexivity. Qed.

Lemma header_bytes_length n r : length (header_bytes n r) = 44.
Proof. reflexivity. Qed.

Lemma ToUint32_double r r' :
  ToUint32 r = ToUint32 r' ->
  ToUint32 (r * 1 * 16 / 8) = ToUint32 (r' * 1 * 16 / 8).
Proof.
  rewrite !byteRate_exact. unfold ToUint32. intros H.
  rewrite (Z.mul_mod 2 r), (Z.mul_mod 2 r') by lia. by rewrite H.
Qed.

(** X9.  The WAV file determines the samples, and the sample rate up to
    2^32: two calls of [pcmToWav] return the same bytes exactly when the
    PCM buffers are equal and the sample rates agree modulo 2^32. *)
Theorem pcmToWav_same_file pcm pcm' r r' :
  pcmToWav pcm r = pcmToWav pcm' r'
  <-> pcm = pcm' /\ ToUint32 r = ToUint32 r'.
Proof.
  rewrite !pcmToWav_eq. split.
  - intros H. apply (inj Some) in H.
    apply app_inj_1 in H as [Hhdr Hpcm]; [|by rewrite !header_bytes_length].
    split; [exact Hpcm|].
    apply (f_equal (fun h => le_value (slice 24 4 h))) in Hhdr.
    change (le_value (bytes_of 4 (ToUint32 r) true)
            = le_value (bytes_of 4 (ToUint32 r') true)) in Hhdr.
    rewrite !le_value_bytes_of_4 in Hhdr
      by (apply Z.mod_pos_bound; lia).
    exact Hhdr.
  - intros [<- Hr]. do 2 f_equal. unfold header_bytes.
    by rewrite Hr, (ToUint32_double r r' Hr).
Qed.

End ServiceFacts.

Section StoryServiceFacts.
Import Story.

Lemma split_on_without sep s :
  mem_ascii sep s = false -> split_on sep s = [s].
Proof.
  unfold mem_ascii. induction s as [|c s IH]; [done|].
  cbn [list_ascii_of_string existsb split_on]. intros H.
  apply orb_false_iff in H as [Hc Hs].
  rewrite Ascii.eqb_sym, Hc, (IH Hs). reflexivity.
Qed.

Lemma split_on_first sep a b :
  mem_ascii sep a = false ->
  split_on sep (a +:+ String sep b) = a :: split_on sep b.
Proof.
  unfold mem_ascii. induction a as [|c a IH].
  - intros _. rewrite append_nil_l. cbn [split_on].
    by rewrite Ascii.eqb_refl.
  - cbn [list_ascii_of_string existsb]. intros H.
    apply orb_false_iff in H as [Hc Ha].
    rewrite append_cons. cbn [split_on].
    rewrite Ascii.eqb_sym, Hc, (IH Ha). reflexivity.
Qed.

(** X10.  [fileToGenerativePart] resolves to what stands between the first
    and the second comma of the data URL: for a URL made of a prefix, a
    comma and a payload, neither holding a comma, to the payload; for a URL
    without a comma to [undefined]; and it rejects when the read fails. *)
Theorem fileToGenerativePart_data_url mime prefix payload :
  mem_ascii ","%char prefix = false ->
  mem_ascii ","%char payload = false ->
  fileToGenerativePart
    {| file_type := mime;
       file_dataURL := Some (prefix +:+ String ","%char payload) |}
  = Fulfilled (Some payload) /\
  fileToGenerativePart {| file_type := mime; file_dataURL := Some prefix |}
  = Fulfilled None /\
  fileToGenerativePart {| file_type := mime; file_dataURL := None |}
  = Rejected "FileReader error".
Proof.
  intros Hprefix Hpayload. unfold fileToGenerativePart. cbn [file_dataURL].
  rewrite split_on_first, !split_on_without by done. done.
Qed.

Lemma fileToGenerativePart_data_url_witness :
  mem_ascii ","%char "data:image/png;base64" = false /\
  mem_ascii ","%char "iVBORw0KGgo=" = false /\
  fileToGenerativePart Sample.drawing = Fulfilled (Some "iVBORw0KGgo=") /\
  fileToGenerativePart
    {| file_type := "image/png";
       file_dataURL := Some "data:image/png;base64" |}
  = Fulfilled None /\
  fileToGenerativePart {| file_type := "image/png"; file_dataURL := None |}
  = Rejected "FileReader error".
Proof.
  split; [reflexivity|]. split; [reflexivity|].
  apply (fileToGenerativePart_data_url "image/png" "data:image/png;base64"
           "iVBORw0KGgo="); reflexivity.
Defined.

Lemma starts_with_first a p c s :
  Str.starts_with (String a p) (String c s) = true -> c = a.
Proof.
  rewrite starts_with_cons. intros H. apply andb_true_iff in H as [H _].
  symmetry. by apply Ascii.eqb_eq.
Qed.

Lemma replace_fences_from_length s : forall skip,
  String.length (replace_fences_from skip s) <= String.length s.
Proof.
  induction s as [|c s IH]; intros skip; [done|].
  pose proof (IH 7) as H7. pose proof (IH 3) as H3. pose proof (IH 0) as H0.
  cbn [replace_fences_from]. destruct skip as [|k].
  - destruct (Str.starts_with FENCE_OPEN (String c s));
      [|destruct (Str.starts_with FENCE_CLOSE (String c s))];
      cbn [String.length]; lia.
  - specialize (IH k). cbn [String.length]. lia.
Qed.

Lemma replace_fences_no_backtick s :
  mem_ascii Str.BACKTICK s = false -> replace_fences_from 0 s = s.
Proof.
  unfold mem_ascii. induction s as [|c s IH]; [done|].
  cbn [list_ascii_of_string existsb replace_fences_from]. intros H.
  apply orb_false_iff in H as [Hc Hs].
  destruct (Str.starts_with FENCE_OPEN (String c s)) eqn:Hopen.
  { apply starts_with_first in Hopen as ->. by rewrite Ascii.eqb_refl in Hc. }
  destruct (Str.starts_with FENCE_CLOSE (String c s)) eqn:Hclose.
  { change FENCE_CLOSE with (String Str.LF "```") in Hclose.
    rewrite starts_with_cons in Hclose.
    apply andb_true_iff in Hclose as [_ Hclose].
    destruct s as [|c' s]; [done|].
    apply starts_with_first in Hclose as ->.
    cbn [list_ascii_of_string existsb] in Hs.
    apply orb_false_iff in Hs as [Hs _]. by rewrite Ascii.eqb_refl in Hs. }
  by rewrite (IH Hs).
Qed.

(** X12.  Fence stripping never lengthens a response, and it leaves a
    response without a backtick as it is: such a response, when not empty,
    reaches the parser trimmed and otherwise unchanged. *)
Theorem response_without_backtick P t :
  t <> EmptyString ->
  mem_ascii Str.BACKTICK t = false ->
  replace_fences t = t /\
  (forall u, String.length (replace_fences u) <= String.length u) /\
  parseResponse P (Some t)
  = match JSON_parse P (trim t) with
    | Some story => Fulfilled story
    | None => Rejected "SyntaxError"
    end.
Proof.
  intros Hne Hno.
  assert (Hsame : replace_fences t = t) by by apply replace_fences_no_backtick.
  split; [exact Hsame|]. split.
  - intros u. apply replace_fences_from_length.
  - destruct t as [|c t]; [done|]. unfold parseResponse. by rewrite Hsame.
Qed.

Lemma response_without_backtick_witness :
  Sample.body <> EmptyString /\
  mem_ascii Str.BACKTICK Sample.body = false /\
  replace_fences Sample.body = Sample.body /\
  (forall u, String.length (replace_fences u) <= String.length u) /\
  parseResponse Sample.platform (Some Sample.body)
  = match JSON_parse Sample.platform (trim Sample.body) with
    | Some story => Fulfilled story
    | None => Rejected "SyntaxError"
    end.
Proof.
  split; [discriminate|]. split; [vm_compute; reflexivity|].
  apply (response_without_backtick Sample.platform Sample.body);
    [discriminate | vm_compute; reflexivity].
Defined.

Lemma trim_end_cons c t :
  is_trimmed c = false -> trim_end (String c t) = String c (trim_end t).
Proof. intros Hc. cbn [trim_end]. destruct (trim_end t); by rewrite ?Hc. Qed.

Lemma json_body_first s :
  json_body s -> exists c s', s = String c s' /\ c <> Str.BACKTICK.
Proof.
  intros [Hne Hlex]. destruct s as [|c s']; [done|].
  exists c, s'. split; [done|]. intros ->.
  rewrite lex_from_cons in Hlex. discriminate Hlex.
Qed.

(** X13.  A line feed in front of the opening fence defeats the stripping:
    the pattern's second alternative matches that line feed and the three
    backticks first, so for every JSON body what reaches the parser begins
    with the letters json and is not a JSON text. *)
Theorem line_feed_before_fence s :
  json_body s ->
  let jsonStr := trim (replace_fences (String Str.LF (fenced s))) in
  replace_fences (String Str.LF (fenced s)) = "json" +:+ String Str.LF s /\
  Str.starts_with "json" jsonStr = true /\
  ~ json_text jsonStr.
Proof.
  intros Hbody.
  assert (Hstrip : replace_fences (String Str.LF (fenced s))
                   = "json" +:+ String Str.LF s).
  { destruct (json_body_first s Hbody) as (c & s' & -> & Hc).
    destruct Hbody as [_ Hlex].
    change (replace_fences (String Str.LF (fenced (String c s'))))
      with (String "j" (String "s" (String "o" (String "n"
              (replace_fences_from 0
                 (String Str.LF (String c s' +:+ FENCE_CLOSE))))))).
    change ("json" +:+ String Str.LF (String c s'))
      with (String "j" (String "s" (String "o" (String "n"
              (String Str.LF (String c s')))))).
    do 4 f_equal.
    cbn [replace_fences_from].
    change (Str.starts_with FENCE_OPEN
              (String Str.LF (String c s' +:+ FENCE_CLOSE))) with false.
    cbv iota.
    change FENCE_CLOSE with (String Str.LF "```") at 1.
    rewrite starts_with_cons, append_cons.
    change ("```"%string) with (String Str.BACKTICK "``") at 1.
    rewrite starts_with_cons.
    apply Ascii.eqb_neq in Hc. rewrite (Ascii.eqb_sym Str.BACKTICK), Hc.
    rewrite Ascii.eqb_refl. cbn [andb]. f_equal.
    rewrite <- append_cons.
    rewrite (replace_fences_json _ Outside) by auto using FENCE_CLOSE_no_backtick.
    apply append_nil_r. }
  intros jsonStr. split; [exact Hstrip|].
  assert (Hjson : jsonStr = "json" +:+ trim_end (String Str.LF s)).
  { subst jsonStr. rewrite Hstrip.
    change (trim ("json" +:+ String Str.LF s))
      with (trim_end (String "j" (String "s" (String "o" (String "n"
              (String Str.LF s)))))).
    rewrite !trim_end_cons by reflexivity. reflexivity. }
  rewrite Hjson. split; [reflexivity|].
  intros Htext. apply json_text_is_body in Htext as [_ Hlex].
  discriminate Hlex.
Qed.

Lemma line_feed_before_fence_witness :
  json_body Sample.body /\
  let jsonStr :=
    trim (replace_fences (String Str.LF (fenced Sample.body))) in
  replace_fences (String Str.LF (fenced Sample.body))
  = "json" +:+ String Str.LF Sample.body /\
  Str.starts_with "json" jsonStr = true /\
  ~ json_text jsonStr.
Proof.
  assert (H : json_body Sample.body)
    by (split; [discriminate | vm_compute; reflexivity]).
  split; [exact H|].
  exact (line_feed_before_fence Sample.body H).
Defined.

(** With the sample platform: the same text parses when the fence comes
    first and is refused when a line feed comes before it. *)
Example line_feed_before_fence_sample :
  parseResponse Sample.platform (Some (fenced Sample.body))
  = Fulfilled Sample.story /\
  parseResponse Sample.platform (Some (String Str.LF (fenced Sample.body)))
  = Rejected "SyntaxError".
Proof. split; vm_compute; reflexivity. Qed.

End StoryServiceFacts.

Section MediaServiceFacts.
Import Media App Inline.

Lemma first_image_some parts url :
  first_image parts = Some url
  <-> exists before p i after,
        parts = before ++ p :: after /\
        Forall no_inline_data before /\
        part_inlineData p = Some i /\
        url = image_url i.
Proof.
  induction parts as [|q parts IH]; simpl.
  - split; [discriminate|]. intros (before & p & i & after & H & _).
    by destruct before.
  - destruct (part_inlineData q) as [j|] eqn:Hq.
    + split.
      * intros [= <-]. exists [], q, j, parts. by repeat split.
      * intros (before & p & i & after & H & Hbefore & Hp & ->).
        destruct before as [|b before]; simpl in H; injection H as -> ->.
        -- rewrite Hq in Hp. by injection Hp as ->.
        -- apply Forall_cons in Hbefore as [Hb _].
           unfold no_inline_data in Hb. congruence.
    + rewrite IH. split.
      * intros (before & p & i & after & -> & Hbefore & Hp & ->).
        exists (q :: before), p, i, after. repeat split; auto.
      * intros (before & p & i & after & H & Hbefore & Hp & ->).
        destruct before as [|b before]; simpl in H; injection H as -> ->.
        -- congruence.
        -- apply Forall_cons in Hbefore as [_ Hbefore].
           exists before, p, i, after. repeat split; auto.
Qed.

Lemma first_image_none parts :
  first_image parts = None <-> Forall no_inline_data parts.
Proof.
  induction parts as [|q parts IH]; simpl; [done|].
  rewrite Forall_cons. unfold no_inline_data at 1.
  destruct (part_inlineData q) as [i|].
  - split; [discriminate|]. by intros [? _].
  - rewrite IH. split; [by split|by intros [_ ?]].
Qed.

(** X14.  [generateIllustration] fulfils exactly when some part of the
    response carries inline data, with the data URL of the first such part,
    always labelled as PNG; it rejects when the call does, and when no part
    carries inline data. *)
Theorem generateIllustration_first_inline response :
  (forall url,
     generateIllustration response = Fulfilled url
     <-> exists parts before p i after,
           response = Fulfilled parts /\
           default [] parts = before ++ p :: after /\
           Forall no_inline_data before /\
           part_inlineData p = Some i /\
           url = image_url i) /\
  (forall e,
     generateIllustration response = Rejected e
     <-> response = Rejected e
         \/ exists parts,
              response = Fulfilled parts /\
              Forall no_inline_data (default [] parts) /\
              e = "Failed to generate illustration").
Proof.
  unfold generateIllustration. destruct response as [parts|e0].
  - destruct (first_image (default [] parts)) as [u|] eqn:Hfirst.
    + apply first_image_some in Hfirst as Hsome.
      assert (Hnot : ~ Forall no_inline_data (default [] parts))
        by (rewrite <- first_image_none, Hfirst; discriminate).
      split.
      * intros url. split.
        -- intros [= <-]. destruct Hsome as (b & p & i & a & ?).
           exists parts, b, p, i, a. tauto.
        -- intros (parts' & b & p & i & a & [= <-] & H).
           f_equal. assert (Hu : first_image (default [] parts) = Some url)
             by (apply first_image_some; eauto).
           congruence.
      * intros e. split; [discriminate|].
        intros [H|(parts' & [= <-] & H & _)]; [discriminate|done].
    + apply first_image_none in Hfirst as Hall. split.
      * intros url. split; [discriminate|].
        intros (parts' & b & p & i & a & [= <-] & H).
        assert (Hu : first_image (default [] parts) = Some url)
          by (apply first_image_some; eauto).
        congruence.
      * intros e. split.
        -- intros [= <-]. right. eauto.
        -- intros [H|(parts' & _ & _ & ->)]; [discriminate|done].
  - split.
    + intros url. split; [discriminate|].
      intros (parts' & b & p & i & a & H & _). discriminate.
    + intros e. split.
      * intros [= <-]. by left.
      * intros [[= <-]|(parts' & H & _)]; [done|discriminate].
Qed.

(** The second part is used when the first has no inline data. *)
Example generateIllustration_skips_text_part :
  generateIllustration
    (Fulfilled (Some [ {| part_inlineData := None |};
                       {| part_inlineData := Some {| data := Some "AAAA" |} |};
                       {| part_inlineData := Some {| data := Some "BBBB" |} |} ]))
  = Fulfilled "data:image/png;base64,AAAA".
Proof. reflexivity. Qed.

(** [generateSpeech] looks at the first part of the response only. *)
Lemma generateSpeech_first_part_only P p rest rest' :
  generateSpeech P (Fulfilled (Some (p :: rest)))
  = generateSpeech P (Fulfilled (Some (p :: rest'))) /\
  generateSpeech P (Fulfilled (Some ({| part_inlineData := None |} :: rest)))
  = Rejected "Failed to generate speech" /\
  generateSpeech P (Fulfilled (Some [])) = Rejected "Failed to generate speech" /\
  generateSpeech P (Fulfilled None) = Rejected "Failed to generate speech".
Proof. repeat split. Qed.

(** X15.  Whatever [generateSpeech] fulfils with is the URL of a blob of
    type audio/wav that holds a 44-byte header for 24000 Hz followed by the
    bytes the payload of the first part decodes to. *)
Theorem generateSpeech_fulfils_with_wav P response url :
  generateSpeech P response = Fulfilled url ->
  exists parts base64 bin,
    response = Fulfilled parts /\
    first_inline_data parts = Some base64 /\
    atob base64 = Some bin /\
    url = URL_createObjectURL P (wav_blob (pcm_of bin)) /\
    blob_type (wav_blob (pcm_of bin)) = "audio/wav" /\
    length (blob_bytes (wav_blob (pcm_of bin))) = 44 + String.length bin /\
    Wav.le_value (Wav.slice 24 4 (blob_bytes (wav_blob (pcm_of bin))))
    = 24000%Z /\
    drop 44 (blob_bytes (wav_blob (pcm_of bin))) = pcm_of bin.
Proof.
  unfold generateSpeech. destruct response as [parts|]; [|discriminate].
  destruct (first_inline_data parts) as [[|c b]|] eqn:Hdata; try discriminate.
  destruct (atob (String c b)) as [bin|] eqn:Hbin; [|discriminate].
  fold (pcm_of bin). rewrite pcmToWav_eq. intros [= <-].
  exists parts, (String c b), bin.
  assert (Hlen : length (pcm_of bin) = String.length bin).
  { unfold pcm_of. rewrite length_map.
    clear. induction bin as [|x b IH]; simpl; auto. }
  repeat split; auto.
  - unfold wav_blob. cbn [blob_bytes]. rewrite length_app, Hlen. reflexivity.
Qed.

Lemma generateSpeech_fulfils_with_wav_witness :
  generateSpeech Sample.platform (Fulfilled (Some (Sample.payload "AQID")))
  = Fulfilled "blob:audio/wav" /\
  exists parts base64 bin,
    Fulfilled (Some (Sample.payload "AQID")) = Fulfilled parts /\
    first_inline_data parts = Some base64 /\
    atob base64 = Some bin /\
    "blob:audio/wav"
    = URL_createObjectURL Sample.platform (wav_blob (pcm_of bin)) /\
    blob_type (wav_blob (pcm_of bin)) = "audio/wav" /\
    length (blob_bytes (wav_blob (pcm_of bin))) = 44 + String.length bin /\
    Wav.le_value (Wav.slice 24 4 (blob_bytes (wav_blob (pcm_of bin))))
    = 24000%Z /\
    drop 44 (blob_bytes (wav_blob (pcm_of bin))) = pcm_of bin.
Proof.
  assert (H : generateSpeech Sample.platform
                (Fulfilled (Some (Sample.payload "AQID")))
              = Fulfilled "blob:audio/wav") by (vm_compute; reflexivity).
  split; [exact H|].
  exact (generateSpeech_fulfils_with_wav Sample.platform _ _ H).
Defined.

End MediaServiceFacts.

(** ** The highlighting of the story text *)

Section HighlightFacts.
Import Highlight.

Lemma strip_prefix_some p : forall s rest,
  strip_prefix p s = Some rest -> s = p +:+ rest.
Proof.
  induction p as [|a p IH]; intros s rest H; simpl in H.
  - by injection H as ->.
  - destruct s as [|b s]; [discriminate|].
    destruct (Ascii.eqb_spec a b) as [<-|]; [|discriminate].
    rewrite append_cons. f_equal. by apply IH.
Qed.

Lemma strip_prefix_append p : forall rest, strip_prefix p (p +:+ rest) = Some rest.
Proof.
  induction p as [|a p IH]; intros rest; [done|].
  rewrite append_cons. cbn [strip_prefix]. by rewrite Ascii.eqb_refl.
Qed.

Lemma lazy_until_some close : forall s m,
  lazy_until close s = Some m ->
  exists rest, s = m +:+ rest /\ lazy_until close m = Some m.
Proof.
  induction s as [|c s IH]; intros m H; [discriminate|].
  cbn [lazy_until] in H.
  destruct (Ascii.eqb c close) eqn:Hc.
  - injection H as <-. exists s. split; [done|].
    cbn [lazy_until]. by rewrite Hc.
  - destruct (is_line_terminator c) eqn:Hlt; [discriminate|].
    destruct (lazy_until close s) as [m'|] eqn:Hm; [|discriminate].
    injection H as <-. destruct (IH m' eq_refl) as (rest & -> & Hm').
    exists rest. split; [by rewrite append_cons|].
    cbn [lazy_until]. by rewrite Hc, Hlt, Hm'.
Qed.

(** A match is a prefix of the text, is not empty, and matches itself. *)
Lemma match_tag_some s tag :
  match_tag s = Some tag ->
  exists c tag' rest,
    tag = String c tag' /\ s = tag +:+ rest /\ match_tag tag = Some tag.
Proof.
  unfold match_tag. intros H.
  destruct (strip_prefix "[SFX:" s) as [r|] eqn:Hsfx.
  - apply strip_prefix_some in Hsfx as ->.
    destruct (lazy_until "]" r) as [m|] eqn:Hm; [|discriminate].
    injection H as <-. apply lazy_until_some in Hm as (rest & -> & Hm).
    exists "["%char, ("SFX:" +:+ m), rest.
    split; [done|]. split; [by rewrite !append_assoc|].
    by rewrite strip_prefix_append, Hm.
  - destruct (strip_prefix "(" s) as [r|] eqn:Hpar; [|discriminate].
    apply strip_prefix_some in Hpar as ->.
    destruct (lazy_until ")" r) as [m|] eqn:Hm; [|discriminate].
    injection H as <-. apply lazy_until_some in Hm as (rest & -> & Hm).
    exists "("%char, m, rest.
    split; [done|]. split; [by rewrite !append_assoc|].
    change (strip_prefix "[SFX:" ("(" +:+ m)) with (@None string).
    by rewrite strip_prefix_append, Hm.
Qed.

Lemma drop_chars_append a : forall rest,
  drop_chars (String.length a) (a +:+ rest) = rest.
Proof. induction a as [|c a IH]; intros rest; [done|]. apply IH. Qed.

Lemma split_from_concat s : forall skip cur,
  concat_strings (split_from skip cur s) = cur +:+ drop_chars skip s.
Proof.
  induction s as [|c s IH]; intros skip cur.
  - cbn [split_from concat_strings]. by destruct skip.
  - cbn [split_from]. destruct skip as [|k]; [|apply IH].
    destruct (match_tag (String c s)) as [tag|] eqn:Htag.
    + apply match_tag_some in Htag as (c' & tag' & rest & -> & Hs & _).
      rewrite append_cons in Hs. injection Hs as <- ->.
      cbn [concat_strings].
      replace (String.length (String c tag') - 1) with (String.length tag')
        by (cbn [String.length]; lia).
      rewrite IH.
      rewrite drop_chars_append, append_nil_l.
      cbn [drop_chars]. by rewrite append_cons.
    + rewrite IH. cbn [drop_chars]. by rewrite append_assoc.
Qed.

Lemma split_on_not_nil sep s : Story.split_on sep s <> [].
Proof.
  destruct s as [|c s]; [done|]. cbn [Story.split_on].
  destruct (Ascii.eqb c sep); [done|]. by destruct (Story.split_on sep s).
Qed.

Lemma join_split_on sep s :
  join (String sep EmptyString) (Story.split_on sep s) = s.
Proof.
  induction s as [|c s IH]; [done|]. cbn [Story.split_on].
  pose proof (split_on_not_nil sep s) as Hne.
  destruct (Ascii.eqb_spec c sep) as [->|Hc].
  - destruct (Story.split_on sep s) as [|w ws]; [done|].
    change (join (String sep EmptyString) (EmptyString :: w :: ws))
      with (String sep (join (String sep EmptyString) (w :: ws))).
    by rewrite IH.
  - destruct (Story.split_on sep s) as [|w ws]; [done|].
    rewrite <- IH. by destruct ws.
Qed.

(** X17.  The splitting of the story text loses nothing: the lines joined
    by line feeds are the text again, the parts of every line, tags and
    texts between them, concatenate to the line, and [processText] returns
    one node per line. *)
Theorem highlighting_loses_nothing display_text :
  join (String Str.LF EmptyString) (Story.split_on Str.LF display_text)
  = display_text /\
  (forall paragraph, concat_strings (split_tags paragraph) = paragraph) /\
  length (processText display_text)
  = length (Story.split_on Str.LF display_text).
Proof.
  split; [apply join_split_on|]. split.
  - intros paragraph. unfold split_tags. by rewrite split_from_concat.
  - unfold processText. apply length_map.
Qed.

Lemma starts_with_append p : forall r, Str.starts_with p (p +:+ r) = true.
Proof.
  induction p as [|a p IH]; intros r; [done|].
  rewrite append_cons, starts_with_cons, Ascii.eqb_refl. apply IH.
Qed.










(** A line with both kinds of tag. *)
Example highlighting_sample :
  split_tags "The ball fell. [SFX: Thud] (softly) Why?"
  = ["The ball fell. "; "[SFX: Thud]"; " "; "(softly)"; " Why?"] /\
  render_paragraph "The ball fell. [SFX: Thud] (softly) Why?"
  = Paragraph [Plain "The ball fell. "; Sfx "Thud"; Plain " ";
               Emotion "(softly)"; Plain " Why?"].
Proof. split; reflexivity. Qed.

Lemma contains_char_cons c x s :
  contains_char c (String x s) = Ascii.eqb c x || contains_char c s.
Proof. reflexivity. Qed.

Lemma lazy_until_none close s :
  contains_char close s = false -> lazy_until close s = None.
Proof.
  induction s as [|c s IH]; [done|].
  rewrite contains_char_cons. intros H.
  apply orb_false_iff in H as [Hc Hs]. cbn [lazy_until].
  rewrite Ascii.eqb_sym, Hc, (IH Hs). by destruct (is_line_terminator c).
Qed.

Lemma match_tag_none c s :
  Ascii.eqb "["%char c = false ->
  Ascii.eqb "("%char c = false \/ contains_char ")" s = false ->
  match_tag (String c s) = None.
Proof.
  intros Hsq Hpar. unfold match_tag.
  change "[SFX:" with (String "["%char "SFX:").
  cbn [strip_prefix]. rewrite Hsq.
  change "("%string with (String "("%char EmptyString).
  cbn [strip_prefix].
  destruct (Ascii.eqb "("%char c); [|done].
  destruct Hpar as [|Hpar]; [done|]. by rewrite (lazy_until_none _ _ Hpar).
Qed.

Lemma split_from_one_part s : forall cur,
  contains_char "[" s = false ->
  contains_char "(" s = false \/ contains_char ")" s = false ->
  split_from 0 cur s = [cur +:+ s].
Proof.
  induction s as [|c s IH]; intros cur Hsq Hpar.
  - by rewrite append_nil_r.
  - rewrite contains_char_cons in Hsq.
    apply orb_false_iff in Hsq as [Hc Hsq].
    cbn [split_from]. rewrite match_tag_none; [| done |].
    + rewrite IH; [by rewrite append_assoc | done |].
      destruct Hpar as [Hpar|Hpar]; rewrite contains_char_cons in Hpar;
        apply orb_false_iff in Hpar as [_ Hpar]; auto.
    + destruct Hpar as [Hpar|Hpar]; rewrite contains_char_cons in Hpar;
        apply orb_false_iff in Hpar as [Hp Hpar]; auto.
Qed.

(** X19.  A line without a square bracket, and without an opening or
    without a closing parenthesis, is a single part.  It is shown as plain
    text, unless it begins with an opening parenthesis: then the whole line
    is styled as an emotion, although nothing closes the parenthesis. *)
Theorem line_without_tags paragraph :
  contains_char "[" paragraph = false ->
  contains_char "(" paragraph = false \/ contains_char ")" paragraph = false ->
  Story.trim paragraph <> EmptyString ->
  split_tags paragraph = [paragraph] /\
  render_paragraph paragraph
  = Paragraph [if Str.starts_with "(" paragraph
               then Emotion paragraph else Plain paragraph].
Proof.
  intros Hsq Hpar Hblank.
  assert (Hone : split_tags paragraph = [paragraph])
    by (unfold split_tags; by rewrite split_from_one_part).
  split; [exact Hone|].
  unfold render_paragraph. rewrite Hone.
  destruct (Story.trim paragraph); [done|].
  cbn [List.map]. unfold render_part.
  destruct paragraph as [|c p]; [done|].
  rewrite contains_char_cons in Hsq. apply orb_false_iff in Hsq as [Hc _].
  change "[SFX:" with (String "["%char "SFX:").
  by rewrite starts_with_cons, Hc.
Qed.

Lemma line_without_tags_witness :
  contains_char "[" "(whispering" = false /\
  (contains_char "(" "(whispering" = false
   \/ contains_char ")" "(whispering" = false) /\
  Story.trim "(whispering" <> EmptyString /\
  split_tags "(whispering" = ["(whispering"] /\
  render_paragraph "(whispering" = Paragraph [Emotion "(whispering"].
Proof.
  split; [reflexivity|]. split; [by right|]. split; [discriminate|].
  apply (line_without_tags "(whispering"); [reflexivity|by right|discriminate].
Defined.

Lemma strip_sfx_no_bracket c s : forall skip,
  (c = "["%char \/ c = "]"%char) ->
  contains_char c (strip_sfx_from skip s) = false.
Proof.
  induction s as [|x s IH]; intros skip Hc; [done|].
  cbn [strip_sfx_from]. destruct skip as [|k]; [|by apply IH].
  destruct (Ascii.eqb x "["%char || Ascii.eqb x "]"%char) eqn:Hx;
    [by apply IH|].
  destruct (Str.starts_with "SFX:" (String x s)); [by apply IH|].
  rewrite contains_char_cons, IH by done.
  apply orb_false_iff in Hx as [H1 H2].
  rewrite Ascii.eqb_sym. by destruct Hc as [->| ->]; rewrite ?H1, ?H2.
Qed.

Lemma contains_trim_start c s :
  contains_char c s = false -> contains_char c (Story.trim_start s) = false.
Proof.
  induction s as [|x s IH]; [done|]. intros H. cbn [Story.trim_start].
  destruct (Story.is_trimmed x); [|done].
  rewrite contains_char_cons in H. apply orb_false_iff in H as [_ H]. auto.
Qed.

Lemma contains_trim_end c s :
  contains_char c s = false -> contains_char c (Story.trim_end s) = false.
Proof.
  induction s as [|x s IH]; [done|]. intros H.
  rewrite contains_char_cons in H. apply orb_false_iff in H as [Hx H].
  specialize (IH H). cbn [Story.trim_end].
  destruct (Story.trim_end s) as [|y t].
  - destruct (Story.is_trimmed x); [done|].
    by rewrite contains_char_cons, Hx.
  - by rewrite contains_char_cons, Hx, IH.
Qed.

Lemma contains_trim c s :
  contains_char c s = false -> contains_char c (Story.trim s) = false.
Proof. intros H. by apply contains_trim_end, contains_trim_start. Qed.

Lemma no_sfx_before_bracket s :
  contains_char ":" s = false ->
  Str.starts_with "SFX:" (s +:+ "]") = false.
Proof.
  intros H.
  change "SFX:" with (String "S"%char (String "F"%char
                       (String "X"%char (String ":"%char EmptyString)))).
  destruct s as [|c1 s]; [reflexivity|].
  rewrite append_cons, starts_with_cons.
  destruct (Ascii.eqb "S" c1); [cbn [andb]|reflexivity].
  rewrite contains_char_cons in H. apply orb_false_iff in H as [_ H].
  destruct s as [|c2 s]; [reflexivity|].
  rewrite append_cons, starts_with_cons.
  destruct (Ascii.eqb "F" c2); [cbn [andb]|reflexivity].
  rewrite contains_char_cons in H. apply orb_false_iff in H as [_ H].
  destruct s as [|c3 s]; [reflexivity|].
  rewrite append_cons, starts_with_cons.
  destruct (Ascii.eqb "X" c3); [cbn [andb]|reflexivity].
  rewrite contains_char_cons in H. apply orb_false_iff in H as [_ H].
  destruct s as [|c4 s]; [reflexivity|].
  rewrite append_cons, starts_with_cons.
  rewrite contains_char_cons in H. apply orb_false_iff in H as [-> _].
  reflexivity.
Qed.

Lemma strip_sfx_body body :
  contains_char "[" body = false ->
  contains_char "]" body = false ->
  contains_char ":" body = false ->
  strip_sfx_from 0 (body +:+ "]") = body.
Proof.
  induction body as [|c b IH]; intros H1 H2 H3; [done|].
  rewrite contains_char_cons in H1, H2.
  apply orb_false_iff in H1 as [Hc1 H1]. apply orb_false_iff in H2 as [Hc2 H2].
  rewrite append_cons. cbn [strip_sfx_from].
  rewrite (Ascii.eqb_sym c "["%char), (Ascii.eqb_sym c "]"%char), Hc1, Hc2.
  cbn [orb]. rewrite <- append_cons, no_sfx_before_bracket by done.
  f_equal. apply IH; [done..|].
  rewrite contains_char_cons in H3. by apply orb_false_iff in H3 as [_ ?].
Qed.

(** X20.  The badge of an SFX tag shows the text of the tag: for a tag
    whose text holds no square bracket and no colon the label is that text,
    trimmed; and no label ever holds a square bracket. *)
Theorem sfx_label_is_tag_text body :
  contains_char "[" body = false ->
  contains_char "]" body = false ->
  contains_char ":" body = false ->
  sfx_label ("[SFX:" +:+ body +:+ "]") = Story.trim body /\
  render_part ("[SFX:" +:+ body +:+ "]") = Sfx (Story.trim body) /\
  (forall part,
     contains_char "[" (sfx_label part) = false /\
     contains_char "]" (sfx_label part) = false).
Proof.
  intros H1 H2 H3.
  assert (Hlabel : sfx_label ("[SFX:" +:+ body +:+ "]") = Story.trim body).
  { unfold sfx_label.
    change (strip_sfx_from 0 ("[SFX:" +:+ body +:+ "]"))
      with (strip_sfx_from 0 (body +:+ "]")).
    by rewrite strip_sfx_body. }
  split; [exact Hlabel|]. split.
  - unfold render_part. by rewrite starts_with_append, Hlabel.
  - intros part. unfold sfx_label.
    split; apply contains_trim, strip_sfx_no_bracket; auto.
Qed.

Lemma sfx_label_is_tag_text_witness :
  contains_char "[" " Thud " = false /\
  contains_char "]" " Thud " = false /\
  contains_char ":" " Thud " = false /\
  sfx_label "[SFX: Thud ]" = "Thud" /\
  render_part "[SFX: Thud ]" = Sfx "Thud" /\
  (forall part,
     contains_char "[" (sfx_label part) = false /\
     contains_char "]" (sfx_label part) = false).
Proof.
  split; [reflexivity|]. split; [reflexivity|]. split; [reflexivity|].
  apply (sfx_label_is_tag_text " Thud "); reflexivity.
Defined.

End HighlightFacts.
